(** * CacheSimulator: the orchestration layer of [cache_simulator.py]

    A shallow embedding of [build_hierarchy], [build_cache], [simulate],
    [analyze_results] and [compute_amat], with the properties of the
    hierarchy construction, of the trace loop and of the recursive AMAT
    computation.

    Conventions of the embedding:
    - Python dictionaries are [gmap]s; a subscript on a missing key raises
      [KeyError].
    - Exceptions are values of [exn]; a computation returns [Ok] or [Raise].
    - Mutable objects (the logger, the list [responses], the cache objects
      behind [l1.read]/[l1.write], and the dictionary created once for the
      default argument [results={}] of [compute_amat]) live in an explicit
      state that every statement threads through.
    - Hit times, access times and AMAT values are exact rationals ([Q]):
      the rounding and the special values of binary floating point are not
      part of the model. *)

From Stdlib Require Import QArith Ascii String.
From stdpp Require Import gmap strings list.
From stdpp Require Import sorting pretty.

Open Scope string_scope.
Open Scope list_scope.

(** ** Exceptions and results *)

Inductive exn : Type :=
| KeyError (key : string)
| ValueError
| NameError (name : string)
| ZeroDivisionError
| IndexError
| UserError (cls : string).

Inductive result (A : Type) : Type :=
| Ok (a : A)
| Raise (e : exn).
Arguments Ok {A} a.
Arguments Raise {A} e.

#[global] Instance result_ret : MRet result := fun A a => Ok a.
#[global] Instance result_bind : MBind result := fun A B k r =>
  match r with
  | Ok a => k a
  | Raise e => Raise e
  end.

(** [d[k]] on a dictionary. *)
Definition getitem {V} (d : gmap string V) (k : string) : result V :=
  match d !! k with
  | Some v => Ok v
  | None => Raise (KeyError k)
  end.

(** [x / y] on numbers: true division, which raises on a zero divisor. *)
Definition truediv (x y : Q) : result Q :=
  if Qeq_bool y 0 then Raise ZeroDivisionError else Ok (x / y)%Q.

(** [float(n)] for a counter. *)
Definition float_of_nat (n : nat) : Q := inject_Z (Z.of_nat n).

(** [l[i]] on a list, for an index that is not negative. *)
Definition list_getitem {V} (l : list V) (i : nat) : result V :=
  match l !! i with
  | Some v => Ok v
  | None => Raise IndexError
  end.

(** ** Strings *)

(** The characters [str.split()] treats as separators in ASCII text. *)
Definition is_space (c : ascii) : bool :=
  let n := nat_of_ascii c in
  ((9 <=? n) && (n <=? 13) || (28 <=? n) && (n <=? 32))%nat.

Definition flush (cur : option string) : list string :=
  match cur with
  | Some w => [w]
  | None => []
  end.

Definition push (cur : option string) (c : ascii) : string :=
  match cur with
  | Some w => w +:+ String c ""
  | None => String c ""
  end.

(** [split_from cur s]: the words of [s], [cur] being the word under
    construction when [s] starts. *)
Fixpoint split_from (cur : option string) (s : string) : list string :=
  match s with
  | "" => flush cur
  | String c rest =>
      if is_space c then flush cur ++ split_from None rest
      else split_from (Some (push cur c)) rest
  end.

(** [s.split()]: the maximal runs of characters that are not white space. *)
Definition split (s : string) : list string := split_from None s.

(** [s.startswith(p)]. *)
Definition startswith (s p : string) : bool := String.prefix p s.

(** [a, b = l]: unpacking into exactly two targets. *)
Definition unpack2 {V} (l : list V) : result (V * V) :=
  match l with
  | [a; b] => Ok (a, b)
  | _ => Raise ValueError
  end.

(** The names bound at module level: the imports and the [def]s.  No
    builtin is called [InvalidOpError] either. *)
Definition module_globals : list string :=
  ["yaml"; "cache"; "argparse"; "logging"; "pprint"; "UnixTable";
   "main"; "print_cache"; "simulate"; "analyze_results"; "compute_amat";
   "build_hierarchy"; "build_cache"].

(** Evaluating a name that is not local to the function. *)
Definition load_global (n : string) : result string :=
  if bool_decide (n ∈ module_globals) then Ok n else Raise (NameError n).

(** ** Data model *)

Unset Elimination Schemes.

(** Modelled from the spec: the class [cache.Cache] is in the [cache]
    module, which is not part of the sources.  A level keeps what its
    constructor is given, in the order in which [build_cache] passes the
    arguments (the logger apart); [name], [hit_time] and [next_level] are
    the attributes that [compute_amat] reads.  The contents of the sets
    are mutable and belong to the engine state below. *)
Inductive Cache : Type := mkCache {
  name : string;
  word_size : Z;
  block_size : Z;
  n_blocks : Z;
  associativity : Z;
  hit_time : Q;
  write_time : Q;
  write_back : bool;
  next_level : option Cache
}.
Set Elimination Schemes.

(** Induction along the [next_level] chain. *)
Fixpoint Cache_ind (P : Cache -> Prop)
    (Hmem : forall c, next_level c = None -> P c)
    (Hnext : forall c next, next_level c = Some next -> P next -> P c)
    (c : Cache) {struct c} : P c :=
  match c as c0 return P c0 with
  | mkCache n ws bs nb a ht wt wb nl =>
      match nl as nl0 return P (mkCache n ws bs nb a ht wt wb nl0) with
      | None => Hmem (mkCache n ws bs nb a ht wt wb None) eq_refl
      | Some next =>
          Hnext (mkCache n ws bs nb a ht wt wb (Some next)) next eq_refl
            (Cache_ind P Hmem Hnext next)
      end
  end.

(** The levels reached from [c] through [next_level], [c] first. *)
Fixpoint chain (c : Cache) : list Cache :=
  c :: match next_level c with
       | None => []
       | Some next => chain next
       end.

(** The object returned by [read] and [write]. *)
Record Response : Type := mkResponse {
  hit_list : gmap string bool;
  time : Q
}.

(** What the program hands to the logger, one constructor per call site. *)
Inductive log_entry : Type :=
| LogInfo (message : string)
| LogReading (current_step : nat) (address : string)
| LogWriting (current_step : nat) (address : string)
| LogOutcome (r : Response)
| LogSimulationComplete
| LogInstructions (n_instructions : nat)
| LogTotalCycles (total_time : Q)
| LogAmats (amat : gmap string Q)
| LogLevelName (level_name : string)
| LogAccesses (n : nat)
| LogHits (n : nat)
| LogMisses (n : nat).

(** A call into the cache engine through [l1]. *)
Inductive call : Type :=
| CallRead (address : string) (current_step : nat)
| CallWrite (address : string) (flag : bool) (current_step : nat).

Definition call_step (c : call) : nat :=
  match c with
  | CallRead _ i => i
  | CallWrite _ _ i => i
  end.

(** ** Configuration and hierarchy construction *)

(** The loaded configuration: the [architecture] entry and one entry per
    level name.  The fields of an entry are those the YAML schema gives
    it; which level entries exist is what [build_hierarchy] inspects. *)
Record architecture_config : Type := mkArchitecture {
  cfg_word_size : Z;
  cfg_block_size : Z;
  cfg_write_back : bool
}.

Record level_config : Type := mkLevel {
  cfg_blocks : Z;
  cfg_associativity : Z;
  cfg_hit_time : Q
}.

Record config : Type := mkConfig {
  architecture : architecture_config;
  levels : gmap string level_config
}.

(** [key in configs.keys()], for a level name. *)
Definition has_level (configs : config) (key : string) : bool :=
  bool_decide (is_Some (levels configs !! key)).

(** [build_cache]: the constructor call, [hit_time] passed twice. *)
Definition build_cache (configs : config) (name : string)
    (next_level_cache : option Cache) : result Cache :=
  entry ← getitem (levels configs) name;
  mret (mkCache name
          (cfg_word_size (architecture configs))
          (cfg_block_size (architecture configs))
          (if bool_decide (name ≠ "mem") then cfg_blocks entry else (-1)%Z)
          (if bool_decide (name ≠ "mem") then cfg_associativity entry else (-1)%Z)
          (cfg_hit_time entry)
          (cfg_hit_time entry)
          (cfg_write_back (architecture configs))
          next_level_cache).

(** One optional step of [build_hierarchy]: the [if key in configs.keys()]
    block, acting on the pair [(prev_level, hierarchy)]. *)
Definition add_level_if_present (configs : config) (key : string)
    (acc : Cache * gmap string Cache) : result (Cache * gmap string Cache) :=
  let '(prev_level, hierarchy) := acc in
  if has_level configs key then
    cache_n ← build_cache configs key (Some prev_level);
    mret (cache_n, <[key := cache_n]> hierarchy)
  else mret (prev_level, hierarchy).

Definition build_hierarchy (configs : config) : result (gmap string Cache) :=
  main_memory ← build_cache configs "mem" None;
  acc ← add_level_if_present configs "cache_4"
          (main_memory, <["mem" := main_memory]> ∅);
  acc ← add_level_if_present configs "cache_3" acc;
  '(prev_level, hierarchy) ← add_level_if_present configs "cache_2" acc;
  cache_1 ← build_cache configs "cache_1" (Some prev_level);
  mret (<["cache_1" := cache_1]> hierarchy).

(** ** State and effects *)

Section Simulator.

(** The cache engine ([import cache]) is not part of the sources: its
    state and the two methods the program calls on [l1] are parameters.
    Per the access protocol every access returns an outcome record. *)
Variable engine : Type.
Variable read : Cache -> string -> nat -> engine -> Response * engine.
Variable write : Cache -> string -> bool -> nat -> engine -> Response * engine.

Record state : Type := mkState {
  st_engine : engine;            (* the mutable contents of the cache objects *)
  st_calls : list call;          (* calls made on [l1] so far, oldest first *)
  st_responses : list Response;  (* the list object bound to [responses] *)
  st_log : list log_entry;       (* what the logger received, oldest first *)
  st_results : gmap string Q     (* the dictionary of the default [results={}] *)
}.

Definition M (A : Type) : Type := state -> result A * state.

#[global] Instance M_ret : MRet M := fun A a s => (Ok a, s).
#[global] Instance M_bind : MBind M := fun A B k m s =>
  match m s with
  | (Ok a, s') => k a s'
  | (Raise e, s') => (Raise e, s')
  end.

Definition throw {A} (e : exn) : M A := fun s => (Raise e, s).

Definition lift {A} (r : result A) : M A := fun s => (r, s).

Definition log (e : log_entry) : M unit := fun s =>
  (Ok (), mkState (st_engine s) (st_calls s) (st_responses s)
            (st_log s ++ [e]) (st_results s)).

(** [results[k] = v] on the default dictionary. *)
Definition results_setitem (k : string) (v : Q) : M unit := fun s =>
  (Ok (), mkState (st_engine s) (st_calls s) (st_responses s)
            (st_log s) (<[k := v]> (st_results s))).

Definition results_get : M (gmap string Q) := fun s => (Ok (st_results s), s).

(** ** [compute_amat] *)

(** The loop over [responses] that counts the accesses and the misses of
    the level called [level_name]; the pair is [(n_miss, n_access)]. *)
Definition count_step (level_name : string) (acc : nat * nat) (r : Response)
    : nat * nat :=
  let '(n_miss, n_access) := acc in
  match hit_list r !! level_name with
  | Some v => (if bool_decide (v = false) then S n_miss else n_miss, S n_access)
  | None => (n_miss, n_access)
  end.

Definition count_accesses (level_name : string) (responses : list Response)
    : nat * nat :=
  fold_left (count_step level_name) responses (0, 0)%nat.

(** Every call site omits [results], so the parameter is always bound to
    the one dictionary created when the [def] is executed: [st_results].
    The function returns that same object; its contents at return time
    are the value handed back here.  [not level.next_level] is the test
    for [None]: a cache object counts as true. *)
Fixpoint compute_amat (level : Cache) (responses : list Response) : M (gmap string Q) :=
  match next_level level with
  | None => results_setitem (name level) (hit_time level)
  | Some next =>
      let '(n_miss, n_access) := count_accesses (name level) responses in
      (if (0 <? n_access)%nat then
         miss_rate ← lift (truediv (float_of_nat n_miss) (float_of_nat n_access));
         lower ← compute_amat next responses;
         a ← lift (getitem lower (name next));
         results_setitem (name level) (hit_time level + miss_rate * a)%Q
       else
         lower ← compute_amat next responses;
         a ← lift (getitem lower (name next));
         results_setitem (name level) (0 * a)%Q);;
      log (LogLevelName (name level));;
      log (LogAccesses n_access);;
      log (LogHits (n_access - n_miss));;
      log (LogMisses n_miss)
  end;;
  results_get.

(** ** [analyze_results] and [simulate] *)

Definition analyze_results (hierarchy : gmap string Cache)
    (responses : list Response) : M unit :=
  let n_instructions := length responses in
  let total_time := fold_left (fun t r => (t + time r)%Q) responses 0%Q in
  log (LogInstructions n_instructions);;
  log (LogTotalCycles total_time);;
  l1 ← lift (getitem hierarchy "cache_1");
  amat ← compute_amat l1 responses;
  log (LogAmats amat).

(** [responses = []]: a new list object. *)
Definition responses_new : M unit := fun s =>
  (Ok (), mkState (st_engine s) (st_calls s) [] (st_log s) (st_results s)).

(** [responses.append(r)]. *)
Definition responses_append (r : Response) : M unit := fun s =>
  (Ok (), mkState (st_engine s) (st_calls s) (st_responses s ++ [r])
            (st_log s) (st_results s)).

Definition responses_get : M (list Response) := fun s => (Ok (st_responses s), s).

(** [l1.read(address, current_step)]. *)
Definition l1_read (l1 : Cache) (address : string) (current_step : nat)
    : M Response := fun s =>
  let '(r, e) := read l1 address current_step (st_engine s) in
  (Ok r, mkState e (st_calls s ++ [CallRead address current_step])
           (st_responses s) (st_log s) (st_results s)).

(** [l1.write(address, flag, current_step)]. *)
Definition l1_write (l1 : Cache) (address : string) (flag : bool)
    (current_step : nat) : M Response := fun s =>
  let '(r, e) := write l1 address flag current_step (st_engine s) in
  (Ok r, mkState e (st_calls s ++ [CallWrite address flag current_step])
           (st_responses s) (st_log s) (st_results s)).

(** [raise n] for a name [n] that the function does not bind. *)
Definition raise_global {A} (n : string) : M A :=
  cls ← lift (load_global n);
  throw (UserError cls).

(** [for x in xs: body]. *)
Fixpoint for_each {X} (xs : list X) (body : X -> M unit) : M unit :=
  match xs with
  | [] => mret ()
  | x :: rest => body x;; for_each rest body
  end.

(** The body of the loop of [simulate], from the unpacking of the line on. *)
Definition execute (l1 : Cache) (current_step : nat) (instruction : string)
    : M unit :=
  '(address, op) ← lift (unpack2 (split instruction));
  if bool_decide (op = "R") then
    log (LogReading current_step address);;
    r ← l1_read l1 address current_step;
    log (LogOutcome r);;
    responses_append r
  else if bool_decide (op = "W") then
    log (LogWriting current_step address);;
    r ← l1_write l1 address true current_step;
    log (LogOutcome r);;
    responses_append r
  else raise_global "InvalidOpError".

(** The whole body: [instruction = trace[current_step]] first. *)
Definition simulate_step (l1 : Cache) (trace : list string)
    (current_step : nat) : M unit :=
  instruction ← lift (list_getitem trace current_step);
  execute l1 current_step instruction.

Definition simulate (hierarchy : gmap string Cache) (trace : list string)
    : M unit :=
  responses_new;;
  l1 ← lift (getitem hierarchy "cache_1");
  for_each (seq 0 (length trace)) (simulate_step l1 trace);;
  log LogSimulationComplete;;
  responses ← responses_get;
  analyze_results hierarchy responses.

(** The engine call [c], and a list of calls made one after the other
    with the outcomes they return. *)
Definition run_call (l1 : Cache) (c : call) (e : engine) : Response * engine :=
  match c with
  | CallRead address current_step => read l1 address current_step e
  | CallWrite address flag current_step => write l1 address flag current_step e
  end.

Fixpoint replay (l1 : Cache) (calls : list call) (e : engine)
    : list Response * engine :=
  match calls with
  | [] => ([], e)
  | c :: rest =>
      let '(r, e1) := run_call l1 c e in
      let '(rs, e2) := replay l1 rest e1 in
      (r :: rs, e2)
  end.

(** The part of [main] that loads the trace: the lines of the file, those
    that start with [#] dropped. *)
Definition load_trace (lines : list string) : list string :=
  filter (fun item => negb (startswith item "#") = true) lines.

(** [main] from the loading of the configuration on: [configs] is what
    [yaml.load] returns, [trace_file] the name of the trace file and
    [lines] its lines.  The optional drawing of the caches afterwards
    only prints. *)
Definition main (configs : config) (trace_file : string) (lines : list string)
    : M unit :=
  log (LogInfo "Loading config...");;
  hierarchy ← lift (build_hierarchy configs);
  log (LogInfo "Memory hierarchy built.");;
  log (LogInfo "Loading tracefile...");;
  let trace := load_trace lines in
  log (LogInfo ("Loaded tracefile " +:+ trace_file));;
  log (LogInfo "Begin simulation!");;
  simulate hierarchy trace.

End Simulator.

Arguments mkState {engine} _ _ _ _ _.
Arguments st_engine {engine} _.
Arguments st_calls {engine} _.
Arguments st_responses {engine} _.
Arguments st_log {engine} _.
Arguments st_results {engine} _.
Arguments throw {engine A} _ _.
Arguments lift {engine A} _ _.
Arguments log {engine} _ _.
Arguments results_setitem {engine} _ _ _.
Arguments results_get {engine} _.
Arguments compute_amat {engine} _ _ _.
Arguments analyze_results {engine} _ _ _.
Arguments responses_new {engine} _.
Arguments responses_append {engine} _ _.
Arguments responses_get {engine} _.
Arguments l1_read {engine} _ _ _ _ _.
Arguments l1_write {engine} _ _ _ _ _ _.
Arguments raise_global {engine A} _ _.
Arguments for_each {engine X} _ _ _.
Arguments execute {engine} _ _ _ _ _ _.
Arguments simulate_step {engine} _ _ _ _ _ _.
Arguments run_call {engine} _ _ _ _ _.
Arguments replay {engine} _ _ _ _ _.
Arguments simulate {engine} _ _ _ _ _.
Arguments main {engine} _ _ _ _ _ _.

(** ** The quantities the statements are phrased with *)

(** The number of outcomes whose [hit_list] contains the level's name. *)
Definition access_count (level_name : string) (outcomes : list Response) : nat :=
  length (filter (fun r => is_Some (hit_list r !! level_name)) outcomes).

(** The number of outcomes whose [hit_list] records [false] for the level. *)
Definition miss_count (level_name : string) (outcomes : list Response) : nat :=
  length (filter (fun r => hit_list r !! level_name = Some false) outcomes).

(** A well-formed instruction: two words, the second [R] or [W]. *)
Definition well_formed (instruction : string) : bool :=
  match split instruction with
  | [address; op] => bool_decide (op = "R") || bool_decide (op = "W")
  | _ => false
  end.

(** The engine call the line at index [current_step] stands for. *)
Definition line_call (current_step : nat) (instruction : string) : option call :=
  match split instruction with
  | [address; op] =>
      if bool_decide (op = "R") then Some (CallRead address current_step)
      else if bool_decide (op = "W") then Some (CallWrite address true current_step)
      else None
  | _ => None
  end.

(** Log entries of the trace loop for steps before [bound]; nothing that
    [simulate] logs after the loop and nothing of the analysis. *)
Definition loop_entry_before (bound : nat) (e : log_entry) : Prop :=
  match e with
  | LogReading current_step _ => current_step < bound
  | LogWriting current_step _ => current_step < bound
  | LogOutcome _ => True
  | _ => False
  end.

(** The value one pass of [compute_amat] stores for [level]. *)
Fixpoint amat_value (level : Cache) (responses : list Response) : Q :=
  match next_level level with
  | None => hit_time level
  | Some next =>
      if (0 <? access_count (name level) responses)%nat then
        (hit_time level
         + float_of_nat (miss_count (name level) responses)
           / float_of_nat (access_count (name level) responses)
           * amat_value next responses)%Q
      else (0 * amat_value next responses)%Q
  end.

(** The contents of the accumulator after one pass from contents [d]:
    the entries of the chain written from main memory upwards. *)
Fixpoint amat_results (level : Cache) (responses : list Response)
    (d : gmap string Q) : gmap string Q :=
  <[name level := amat_value level responses]>
    (match next_level level with
     | None => d
     | Some next => amat_results next responses d
     end).

(** What one pass sends to the logger. *)
Fixpoint amat_log (level : Cache) (responses : list Response) : list log_entry :=
  match next_level level with
  | None => []
  | Some next =>
      amat_log next responses ++
      [LogLevelName (name level);
       LogAccesses (access_count (name level) responses);
       LogHits (access_count (name level) responses
                - miss_count (name level) responses);
       LogMisses (miss_count (name level) responses)]
  end.

(** ** Sample hierarchies and outcome logs *)

(** [cache_1] (hit time 1) directly above [mem] (hit time 50). *)
Definition two_level_mem : Cache :=
  mkCache "mem" 4 4 (-1) (-1) 50 50 true None.
Definition two_level_l1 : Cache :=
  mkCache "cache_1" 4 4 2 1 1 1 true (Some two_level_mem).

(** [cache_1] above [cache_2] above [mem] (hit times 1, 10, 100). *)
Definition three_level_mem : Cache :=
  mkCache "mem" 4 4 (-1) (-1) 100 100 true None.
Definition three_level_l2 : Cache :=
  mkCache "cache_2" 4 4 8 2 10 10 true (Some three_level_mem).
Definition three_level_l1 : Cache :=
  mkCache "cache_1" 4 4 2 1 1 1 true (Some three_level_l2).

Definition outcome_l1_hit : Response :=
  mkResponse {[ "cache_1" := true ]} 1.
Definition outcome_l1_miss : Response :=
  mkResponse (<["cache_1" := false]> {[ "mem" := true ]}) 51.
Definition outcome_l2_miss : Response :=
  mkResponse (<["cache_1" := false]> (<["cache_2" := false]> {[ "mem" := true ]})) 111.

(** Two cold misses, then a hit. *)
Definition outcomes_cold_cold_hit : list Response :=
  [outcome_l1_miss; outcome_l1_miss; outcome_l1_hit].


(** One access misses at both cache levels. *)
Definition outcomes_one_full_miss : list Response :=
  [outcome_l2_miss].

(** A configuration with [cache_1], [cache_3] and [mem]. *)
Definition sample_config : config :=
  mkConfig (mkArchitecture 4 4 true)
    (<["mem" := mkLevel 0 0 100]>
       (<["cache_3" := mkLevel 16 4 20]>
          (<["cache_1" := mkLevel 2 1 1]> ∅))).

(** The configuration of the end-to-end scenario. *)
Definition scenario_config : config :=
  mkConfig (mkArchitecture 4 4 true)
    (<["mem" := mkLevel 0 0 50]> (<["cache_1" := mkLevel 2 1 1]> ∅)).

(** A stand-in for the engine: it remembers the addresses seen; an
    address seen before hits at the level asked, a new one misses there
    and is served by [mem] at 50 cycles. *)
Definition toy_engine : Type := gset string.

Definition toy_access (l1 : Cache) (address : string) (e : toy_engine)
    : Response * toy_engine :=
  if bool_decide (address ∈ e) then
    (mkResponse {[ name l1 := true ]} (hit_time l1), e)
  else
    (mkResponse (<[name l1 := false]> {[ "mem" := true ]}) (hit_time l1 + 50)%Q,
     {[ address ]} ∪ e).

Definition toy_read (l1 : Cache) (address : string) (current_step : nat)
    (e : toy_engine) : Response * toy_engine :=
  toy_access l1 address e.

Definition toy_write (l1 : Cache) (address : string) (flag : bool)
    (current_step : nat) (e : toy_engine) : Response * toy_engine :=
  toy_access l1 address e.

(** A state whose accumulator is still the empty dictionary. *)
Definition initial_state {engine} (e : engine) : state engine :=
  mkState e [] [] [] ∅.

(** The state after one pass of [compute_amat]. *)
Definition after_amat {engine} (level : Cache) (responses : list Response)
    (s : state engine) : state engine :=
  mkState (st_engine s) (st_calls s) (st_responses s)
    (st_log s ++ amat_log level responses)
    (amat_results level responses (st_results s)).

(** The state right after [responses = []]. *)
Definition with_new_responses {engine} (s : state engine) : state engine :=
  mkState (st_engine s) (st_calls s) [] (st_log s) (st_results s).

(** The hierarchy of the end-to-end scenario and two traces for it. *)
Definition scenario_hierarchy : gmap string Cache :=
  <["cache_1" := two_level_l1]> (<["mem" := two_level_mem]> ∅).

Definition scenario_lines : list string :=
  ["# warm-up"; "0 R"; "4 R"; "# again"; "0 W"].

Definition invalid_op_trace : list string := ["0 R"; "4 X"; "0 R"].

(** What the loop logs before the call [c]. *)
Definition call_log_entry (c : call) : log_entry :=
  match c with
  | CallRead address current_step => LogReading current_step address
  | CallWrite address _ current_step => LogWriting current_step address
  end.

(** The state after the loop body has carried out the call [c]. *)
Definition after_call {engine} read write (l1 : Cache) (c : call)
    (s : state engine) : state engine :=
  let '(r, e) := run_call read write l1 c (st_engine s) in
  mkState e (st_calls s ++ [c]) (st_responses s ++ [r])
    (st_log s ++ [call_log_entry c; LogOutcome r]) (st_results s).

(** The state after the loop has gone through [lines], the first of them
    at step [start], as long as the lines stand for calls. *)
Fixpoint after_lines {engine} read write (l1 : Cache) (start : nat)
    (lines : list string) (s : state engine) : state engine :=
  match lines with
  | [] => s
  | line :: rest =>
      match line_call start line with
      | Some c => after_lines read write l1 (S start) rest (after_call read write l1 c s)
      | None => s
      end
  end.

(** ** Address decoding *)

(** Modelled from the spec: the number of sets of a level, which the
    cache engine (not part of the sources) derives from the constructor
    arguments: [numSets = numBlocks / associativity]. *)
Definition num_sets (level : Cache) : Z := n_blocks level / associativity level.

(** Modelled from the spec: the address decoder of the cache engine,
    which is not part of the sources.  Given an address and a level it
    returns [(tag, setIndex, blockOffset)] with
    [blockOffset = address mod blockSize],
    [setIndex = (address / blockSize) mod numSets] and
    [tag = address / blockSize / numSets]. *)
Definition decode_address (address : Z) (level : Cache) : Z * Z * Z :=
  (address / block_size level / num_sets level,
   (address / block_size level) mod num_sets level,
   address mod block_size level)%Z.

(** ** More quantities for the statements *)

(** The level names that [build_hierarchy] looks for. *)
Definition level_names : list string :=
  ["mem"; "cache_4"; "cache_3"; "cache_2"; "cache_1"].

(** The level stored under [key] is the one [build_cache] makes from the
    configuration: its own name, the shared architecture settings, the
    entry's hit time as both hit and write time, the entry's size and
    associativity ([-1] for [mem]), and no next level exactly for [mem]. *)
Definition level_matches (configs : config) (key : string) (level : Cache) : Prop :=
  name level = key ∧
  word_size level = cfg_word_size (architecture configs) ∧
  block_size level = cfg_block_size (architecture configs) ∧
  write_back level = cfg_write_back (architecture configs) ∧
  (next_level level = None <-> key = "mem") ∧
  ∃ entry,
    levels configs !! key = Some entry ∧
    hit_time level = cfg_hit_time entry ∧
    write_time level = cfg_hit_time entry ∧
    n_blocks level = (if bool_decide (key = "mem") then (-1)%Z else cfg_blocks entry) ∧
    associativity level =
      (if bool_decide (key = "mem") then (-1)%Z else cfg_associativity entry).


Definition config_with_cache_5 : config :=
  mkConfig (mkArchitecture 4 4 true)
    (<["cache_5" := mkLevel 64 8 40]> (levels sample_config)).

(** The entry one pass writes under [key]: that of the topmost level of
    the chain called [key], if there is one. *)
Fixpoint amat_entry (level : Cache) (responses : list Response) (key : string)
    : option Q :=
  if decide (name level = key) then Some (amat_value level responses)
  else match next_level level with
       | None => None
       | Some next => amat_entry next responses key
       end.

(** The hit times of the chain added up. *)
Fixpoint total_hit_time (level : Cache) : Q :=
  (hit_time level
   + match next_level level with
     | None => 0
     | Some next => total_hit_time next
     end)%Q.

(** The levels of the chain that have a next level: all but main memory. *)
Fixpoint cache_levels (level : Cache) : list Cache :=
  match next_level level with
  | None => []
  | Some next => level :: cache_levels next
  end.

(** The number of outcomes whose [hit_list] records [true] for the level. *)
Definition hit_count (level_name : string) (outcomes : list Response) : nat :=
  length (filter (fun r => hit_list r !! level_name = Some true) outcomes).

(** The four log entries about one level. *)
Definition level_report (outcomes : list Response) (level : Cache)
    : list log_entry :=
  [LogLevelName (name level);
   LogAccesses (access_count (name level) outcomes);
   LogHits (hit_count (name level) outcomes);
   LogMisses (miss_count (name level) outcomes)].

(** The outcomes of the scenario in another order. *)
Definition outcomes_hit_cold_cold : list Response :=
  [outcome_l1_hit; outcome_l1_miss; outcome_l1_miss].

(** The longest prefix of the trace made of well-formed instructions. *)
Fixpoint well_formed_prefix (trace : list string) : list string :=
  match trace with
  | [] => []
  | line :: rest =>
      if well_formed line then line :: well_formed_prefix rest else []
  end.

(** What the loop logs for calls and the outcomes they returned. *)
Fixpoint access_log (calls : list call) (responses : list Response)
    : list log_entry :=
  match calls, responses with
  | c :: calls', r :: responses' =>
      call_log_entry c :: LogOutcome r :: access_log calls' responses'
  | _, _ => []
  end.

(** The times of the outcomes added up. *)
Definition total_cycles (responses : list Response) : Q :=
  foldr (fun r t => (time r + t)%Q) 0%Q responses.

(** A trace with a line of three words after a well-formed one. *)
Definition three_word_trace : list string := ["0 R"; "4 R now"; "8 W"].

(** Every character of [s] satisfies [p]. *)
Fixpoint all_chars (p : ascii -> bool) (s : string) : bool :=
  match s with
  | "" => true
  | String c rest => p c && all_chars p rest
  end.

(** White space only (the empty string included). *)
Definition is_blank (s : string) : bool := all_chars is_space s.

(** A word: at least one character and no white space. *)
Definition is_word (s : string) : bool :=
  match s with
  | "" => false
  | _ => all_chars (fun c => negb (is_space c)) s
  end.

(** The address a call carries. *)
Definition call_address (c : call) : string :=
  match c with
  | CallRead address _ => address
  | CallWrite address _ _ => address
  end.

(** A trace file that holds comments only. *)
Definition comment_lines : list string := ["# nothing to do"; "#"].

(** ** [print_cache] *)

(** [for x in xs: out.append(f(x))], where [f] may raise. *)
Fixpoint collect {X Y} (f : X -> result Y) (xs : list X) : result (list Y) :=
  match xs with
  | [] => Ok []
  | x :: rest =>
      y ← f x;
      ys ← collect f rest;
      mret (y :: ys)
  end.

(** [d[k]] on a dictionary given by its items in insertion order. *)
Definition odict_getitem {X V} `{EqDecision X} (repr : X -> string)
    (d : list (X * V)) (k : X) : result V :=
  match list_find (fun item => item.1 = k) d with
  | Some (_, item) => Ok item.2
  | None => Raise (KeyError (repr k))
  end.

(** What is handed to [UnixTable]: the rows, the title, the border flag. *)
Inductive cell (A : Type) : Type :=
| Text (s : string)
| AddressOf (a : A).
Arguments Text {A} s.
Arguments AddressOf {A} a.

Record table (A : Type) : Type := mkTable {
  table_title : string;
  table_rows : list (list (cell A));
  table_inner_row_border : bool
}.
Arguments mkTable {A} _ _ _.
Arguments table_title {A} _.
Arguments table_rows {A} _.
Arguments table_inner_row_border {A} _.

Section PrintCache.

(** The contents of a cache, [cache.data], belong to the cache engine,
    which is not part of the sources: a dictionary from set keys to
    dictionaries from way keys to blocks, of which only [address] is
    read.  The key types, the order [sorted] uses on set keys and the
    text of a key in a [KeyError] are parameters; a dictionary is the
    list of its items in insertion order. *)
Context {K W A : Type} `{EqDecision K, EqDecision W}.
Variable key_le : K -> K -> Prop.
Context `{!RelDecision key_le}.
Variable repr_key : K -> string.
Variable repr_way : W -> string.

(** One row of a set: the label with the position [s], then the address
    of every block of the set at position [s] of [set_indexes]. *)
Definition set_row (data : list (K * list (W * A))) (set_indexes : list K)
    (s : nat) : result (list (cell A)) :=
  key ← list_getitem set_indexes s;
  ways ← odict_getitem repr_key data key;
  let set_ways := ways.*1 in
  let temp_way := [Text ("Set " +:+ pretty s)] in
  cells ← collect (fun w =>
             key ← list_getitem set_indexes s;
             ways ← odict_getitem repr_key data key;
             address ← odict_getitem repr_way ways w;
             mret (AddressOf address)) set_ways;
  mret (temp_way ++ cells).

(** [print_cache]: the table that is printed, or [None] when nothing is. *)
Definition print_cache (cache : Cache) (data : list (K * list (W * A)))
    : result (option (table A)) :=
  let table_size := 5 in
  let set_indexes := merge_sort key_le data.*1 in
  if (0 <? length data.*1)%nat then
    first_key ← list_getitem data.*1 0;
    let ways :=
      Text "" :: map (fun way_no => Text ("Way " +:+ pretty way_no))
                   (seq 0 (Z.to_nat (associativity cache))) in
    sets ←
      (if (table_size + 4 - 1 <? length set_indexes)%nat then
         first ← collect (set_row data set_indexes)
                   (seq 0 (table_size `min` (length set_indexes - 4)));
         let filler :=
           replicate 3
             (Text "." :: replicate (Z.to_nat (associativity cache)) (Text "")) in
         last ← set_row data set_indexes (length set_indexes - 1);
         mret ([ways] ++ first ++ filler ++ [last])
       else
         all ← collect (set_row data set_indexes) (seq 0 (length set_indexes));
         mret ([ways] ++ all));
    mret (Some (mkTable (name cache) sets true))
  else mret None.

End PrintCache.

Arguments set_row {K W A _ _} _ _ _ _ _.
Arguments print_cache {K W A _ _} _ {_} _ _ _ _.

(** Sample contents: sets keyed by numbers, ways by numbers, addresses
    as text. *)
Definition sample_data (n : nat) : list (nat * list (nat * string)) :=
  map (fun i => (i, [(0%nat, "a" +:+ pretty i); (1%nat, "b" +:+ pretty i)]))
    (reverse (seq 0 n)).

Definition two_way_cache : Cache :=
  mkCache "cache_1" 4 4 24 2 1 1 true (Some two_level_mem).

(** A row that [print_cache] makes for position [s] of [set_indexes]: the
    label with the position, then, for the set of [data] under the key at
    that position, the address of a block under each of its way keys, in
    their order. *)
Definition is_set_row {K W A} (data : list (K * list (W * A)))
    (set_indexes : list K) (s : nat) (row : list (cell A)) : Prop :=
  ∃ key ways cells,
    set_indexes !! s = Some key ∧
    (key, ways) ∈ data ∧
    row = Text ("Set " +:+ pretty s) :: cells ∧
    Forall2 (fun w c => ∃ a, (w, a) ∈ ways ∧ c = AddressOf a) ways.*1 cells.

(** The positions of the sets that the table shows. *)
Definition shown_positions (n : nat) : list nat :=
  if (n <=? 8)%nat then seq 0 n else seq 0 5 ++ [(n - 1)%nat].

(** The first cells of the rows of the table for [n] sets. *)
Definition row_labels {A} (n : nat) : list (cell A) :=
  Text "" ::
  (if (n <=? 8)%nat then map (fun s => Text ("Set " +:+ pretty s)) (seq 0 n)
   else map (fun s => Text ("Set " +:+ pretty s)) (seq 0 5)
        ++ replicate 3 (Text ".")
        ++ [Text ("Set " +:+ pretty (n - 1)%nat)]).

(** * Properties *)

(** ** Splitting a line *)

Example split_instruction : split "0 R" = ["0"; "R"].
Proof. reflexivity. Qed.

Example split_white_space : split ("  12" +:+ String "009" "W ") = ["12"; "W"].
Proof. reflexivity. Qed.

Example split_empty : split "" = [].
Proof. reflexivity. Qed.

Example split_three_words : well_formed "0 R x" = false.
Proof. reflexivity. Qed.

(** ** The counting loop *)

Lemma count_step_fold level_name responses n_miss n_access :
  fold_left (count_step level_name) responses (n_miss, n_access) =
  (n_miss + miss_count level_name responses,
   n_access + access_count level_name responses)%nat.
Proof.
  revert n_miss n_access.
  induction responses as [|r rs IH]; intros n_miss n_access.
  - unfold miss_count, access_count. simpl. f_equal; lia.
  - cbn [fold_left].
    unfold miss_count, access_count. rewrite !filter_cons.
    unfold count_step at 2.
    destruct (hit_list r !! level_name) as [[|]|] eqn:E;
      rewrite IH; unfold miss_count, access_count;
      repeat case_decide; simplify_eq;
      try (exfalso; match goal with H : ¬ is_Some _ |- _ => apply H end; by eexists);
      try (exfalso; match goal with H : is_Some None |- _ => by destruct H end);
      simpl; f_equal; lia.
Qed.

Lemma count_accesses_counts level_name responses :
  count_accesses level_name responses =
  (miss_count level_name responses, access_count level_name responses).
Proof. unfold count_accesses. by rewrite count_step_fold. Qed.

(** The misses are among the accesses, so the number of hits that
    [compute_amat] logs, [n_access - n_miss], is never cut off at zero. *)
Lemma miss_count_le level_name responses :
  (miss_count level_name responses <= access_count level_name responses)%nat.
Proof.
  unfold miss_count, access_count.
  induction responses as [|r rs IH]; [done|].
  rewrite !filter_cons.
  repeat case_decide; simpl; try lia.
  exfalso. match goal with H : ¬ is_Some _ |- _ => apply H end. by eexists.
Qed.

(** ** Division *)

Example truediv_by_zero : truediv 1 0 = Raise ZeroDivisionError.
Proof. reflexivity. Qed.

Lemma truediv_guarded n_miss n_access :
  (0 < n_access)%nat ->
  truediv (float_of_nat n_miss) (float_of_nat n_access) =
  Ok (float_of_nat n_miss / float_of_nat n_access)%Q.
Proof.
  intros Hpos. unfold truediv.
  destruct (Qeq_bool (float_of_nat n_access) 0) eqn:E; [|done].
  apply Qeq_bool_iff in E. unfold float_of_nat, Qeq in E. simpl in E. lia.
Qed.

(** ** One pass of [compute_amat] *)

Lemma amat_results_self level responses d :
  amat_results level responses d !! name level = Some (amat_value level responses).
Proof. destruct level; simpl. apply lookup_insert_eq. Qed.

(** Entries under names outside the chain are left as they were. *)
Lemma amat_results_frame level responses d key :
  key ∉ map name (chain level) ->
  amat_results level responses d !! key = d !! key.
Proof.
  induction level as [c Hc|c next Hc IH] using Cache_ind;
    destruct c; simpl in *; subst; intros Hkey;
    apply not_elem_of_cons in Hkey as [Hne Hrest].
  - by rewrite lookup_insert_ne.
  - rewrite lookup_insert_ne by done. by apply IH.
Qed.

Section AmatFacts.
Context {engine : Type}.
Implicit Types (s : state engine) (level next : Cache) (responses : list Response).

(** The pass never raises; its result and its final state in closed form. *)
Lemma compute_amat_run level responses s :
  compute_amat level responses s =
  (Ok (amat_results level responses (st_results s)), after_amat level responses s).
Proof.
  revert s. induction level as [c Hc|c next Hc IH] using Cache_ind; intros s.
  - destruct c; simpl in *; subst. unfold after_amat; simpl.
    rewrite app_nil_r. reflexivity.
  - destruct c; simpl in *; subst.
    rewrite count_accesses_counts.
    destruct (0 <? access_count name0 responses)%nat eqn:G.
    + unfold mbind, M_bind at 1 2 3. unfold lift at 1.
      rewrite truediv_guarded by (by apply Nat.ltb_lt).
      unfold mbind, M_bind, lift. cbv beta iota. rewrite IH. cbv beta iota.
      unfold getitem. rewrite amat_results_self. simpl.
      unfold after_amat. simpl. rewrite G. rewrite <- !app_assoc. reflexivity.
    + unfold mbind, M_bind, lift. cbv beta iota. rewrite IH. cbv beta iota.
      unfold getitem. rewrite amat_results_self. simpl.
      unfold after_amat. simpl. rewrite G. rewrite <- !app_assoc. reflexivity.
Qed.

(** C1. For a level with a next level whose name occurs in at least one
    outcome's [hit_list], one pass of [compute_amat] stores under the
    level's name [hit_time + missRate * a], where [missRate] is
    [miss_count / access_count] and [a] is the entry the recursive call on
    the next level, made in the same pass, leaves under the next level's
    name (and which the returned mapping still has there when the two
    names differ). *)
Theorem compute_amat_recursive_case level next responses s :
  next_level level = Some next ->
  (0 < access_count (name level) responses)%nat ->
  ∃ lower s1 a final s2,
    compute_amat next responses s = (Ok lower, s1) ∧
    lower !! name next = Some a ∧
    compute_amat level responses s = (Ok final, s2) ∧
    st_results s2 = final ∧
    (name next ≠ name level -> final !! name next = Some a) ∧
    final !! name level =
      Some (hit_time level
            + float_of_nat (miss_count (name level) responses)
              / float_of_nat (access_count (name level) responses)
              * a)%Q.
Proof.
  intros Hnext Hpos.
  exists (amat_results next responses (st_results s)),
    (after_amat next responses s), (amat_value next responses),
    (amat_results level responses (st_results s)),
    (after_amat level responses s).
  rewrite !compute_amat_run, !amat_results_self.
  do 4 (split; [done|]).
  destruct level; simpl in *; subst. split.
  - intros Hne. rewrite lookup_insert_ne by done. apply amat_results_self.
  - apply Nat.ltb_lt in Hpos. by rewrite Hpos.
Qed.

(** C2. For a level without a next level (main memory), one pass of
    [compute_amat] stores the level's [hit_time] under its name, whatever
    the outcomes are. *)
Theorem compute_amat_main_memory level responses s :
  next_level level = None ->
  ∃ final s',
    compute_amat level responses s = (Ok final, s') ∧
    st_results s' = final ∧
    final !! name level = Some (hit_time level).
Proof.
  intros Hnone.
  exists (amat_results level responses (st_results s)),
    (after_amat level responses s).
  rewrite compute_amat_run, amat_results_self.
  repeat split. destruct level; simpl in *; by subst.
Qed.


(** C10. [compute_amat] returns normally on every hierarchy, every list
    of outcomes (the empty one included) and every state: the division,
    which raises on a zero divisor, is only reached with a positive
    [n_access]. *)
Theorem compute_amat_never_divides_by_zero level responses s :
  ∃ final s', compute_amat level responses s = (Ok final, s').
Proof. rewrite compute_amat_run. eauto. Qed.

End AmatFacts.

Lemma compute_amat_recursive_case_witness :
  next_level two_level_l1 = Some two_level_mem ∧
  (0 < access_count (name two_level_l1) outcomes_cold_cold_hit)%nat ∧
  ∃ lower s1 a final s2,
    compute_amat two_level_mem outcomes_cold_cold_hit (initial_state ())
      = (Ok lower, s1) ∧
    lower !! name two_level_mem = Some a ∧
    compute_amat two_level_l1 outcomes_cold_cold_hit (initial_state ())
      = (Ok final, s2) ∧
    st_results s2 = final ∧
    (name two_level_mem ≠ name two_level_l1 -> final !! name two_level_mem = Some a) ∧
    final !! name two_level_l1 =
      Some (hit_time two_level_l1
            + float_of_nat (miss_count (name two_level_l1) outcomes_cold_cold_hit)
              / float_of_nat (access_count (name two_level_l1) outcomes_cold_cold_hit)
              * a)%Q.
Proof.
  split; [reflexivity|]. split; [vm_compute; lia|].
  apply (compute_amat_recursive_case two_level_l1 two_level_mem
           outcomes_cold_cold_hit (initial_state ())).
  - reflexivity.
  - vm_compute; lia.
Defined.

Lemma compute_amat_main_memory_witness :
  next_level two_level_mem = None ∧
  ∃ final s',
    compute_amat two_level_mem outcomes_cold_cold_hit (initial_state ())
      = (Ok final, s') ∧
    st_results s' = final ∧
    final !! name two_level_mem = Some (hit_time two_level_mem).
Proof.
  split; [reflexivity|].
  apply (compute_amat_main_memory two_level_mem outcomes_cold_cold_hit
           (initial_state ())).
  reflexivity.
Defined.


(** The end-to-end scenario: three accesses, two misses, AMAT of
    [cache_1] equal to [1 + (2/3) * 50]. *)
Example amat_end_to_end :
  ∃ final s v,
    compute_amat two_level_l1 outcomes_cold_cold_hit (initial_state ())
      = (Ok final, s) ∧
    final !! "cache_1" = Some v ∧ (v == 103 # 3)%Q ∧
    final !! "mem" = Some 50%Q.
Proof.
  exists (amat_results two_level_l1 outcomes_cold_cold_hit ∅),
    (after_amat two_level_l1 outcomes_cold_cold_hit (initial_state ())),
    (amat_value two_level_l1 outcomes_cold_cold_hit).
  split; [apply compute_amat_run|].
  split; [apply amat_results_self|].
  split; [vm_compute; reflexivity|].
  simpl. rewrite lookup_insert_ne by done. apply lookup_insert_eq.
Qed.

(** ** The accumulator outlives a call *)

(** A later pass keeps every entry whose name is not on its own chain. *)
Lemma compute_amat_keeps_foreign_entries {engine} level responses
    (s : state engine) key :
  key ∉ map name (chain level) ->
  ∃ final s',
    compute_amat level responses s = (Ok final, s') ∧
    final !! key = st_results s !! key.
Proof.
  intros Hkey. rewrite compute_amat_run. do 2 eexists. split; [done|].
  by apply amat_results_frame.
Qed.

(** C8. The accumulator of [compute_amat] is one object shared by all
    calls: there are two successive top-level calls, over different
    hierarchies and outcome lists, such that the mapping the second call
    returns still holds an entry the first call produced, under a name
    that is no level of the second hierarchy; the same second call from
    an empty accumulator returns a mapping without that entry. *)
Theorem compute_amat_accumulator_leaks :
  ∃ (levelA levelB : Cache) (responsesA responsesB : list Response)
    (key : string) (v : Q) (dA dB dFresh : gmap string Q)
    (sA sB sFresh : state ()),
    compute_amat levelA responsesA (initial_state ()) = (Ok dA, sA) ∧
    compute_amat levelB responsesB sA = (Ok dB, sB) ∧
    compute_amat levelB responsesB (initial_state ()) = (Ok dFresh, sFresh) ∧
    (key ∉ map name (chain levelB)) ∧
    dA !! key = Some v ∧
    dB !! key = Some v ∧
    dFresh !! key = None ∧
    dB ≠ dFresh.
Proof.
  exists three_level_l1, two_level_l1, outcomes_one_full_miss,
    outcomes_cold_cold_hit, "cache_2".
  assert (Hkey : "cache_2" ∉ map name (chain two_level_l1)).
  { simpl. intros H. repeat (apply elem_of_cons in H as [H|H]; [discriminate|]).
    by apply elem_of_nil in H. }
  eexists _, _, _, _, _, _, _.
  split; [apply compute_amat_run|].
  split; [apply compute_amat_run|].
  split; [apply compute_amat_run|].
  split; [exact Hkey|].
  assert (HA : amat_results three_level_l1 outcomes_one_full_miss
                 (st_results (initial_state ())) !! "cache_2"
               = Some (amat_value three_level_l2 outcomes_one_full_miss)).
  { simpl. rewrite lookup_insert_ne by done. apply lookup_insert_eq. }
  assert (HB : amat_results two_level_l1 outcomes_cold_cold_hit
                 (st_results (after_amat three_level_l1 outcomes_one_full_miss
                                (initial_state ()))) !! "cache_2"
               = Some (amat_value three_level_l2 outcomes_one_full_miss)).
  { rewrite amat_results_frame by (exact Hkey). exact HA. }
  assert (HF : amat_results two_level_l1 outcomes_cold_cold_hit
                 (st_results (initial_state ())) !! "cache_2" = None).
  { rewrite amat_results_frame by (exact Hkey). apply lookup_empty. }
  split; [exact HA|]. split; [exact HB|]. split; [exact HF|].
  intros Heq. rewrite Heq, HF in HB. discriminate.
Qed.

(** ** Hierarchy construction *)

Lemma has_level_true configs key entry :
  levels configs !! key = Some entry -> has_level configs key = true.
Proof. intros H. unfold has_level. apply bool_decide_eq_true_2. by eexists. Qed.

Lemma has_level_false configs key :
  levels configs !! key = None -> has_level configs key = false.
Proof.
  intros H. unfold has_level. apply bool_decide_eq_false_2.
  rewrite H. by intros [? ?].
Qed.

Ltac resolve_has_level :=
  repeat first [ erewrite has_level_true by eassumption
               | rewrite has_level_false by assumption ].

Ltac chain_member H :=
  repeat (apply elem_of_cons in H as [->|H]; [by simplify_map_eq|]);
  by apply elem_of_nil in H.

Ltac hierarchy_key H :=
  repeat (rewrite lookup_insert in H; case_decide; [subst; set_solver|]);
  by rewrite lookup_empty in H.

(** C4. For a configuration with entries [mem] and [cache_1],
    [build_hierarchy] returns a mapping in which the [next_level] chain of
    [cache_1] runs through exactly those of [cache_2], [cache_3],
    [cache_4] that the configuration has, in this order, and ends at the
    level stored under [mem], whose [next_level] is [None]; every level of
    the chain is the one the mapping stores under its name, and the
    mapping has no other key. *)
Theorem build_hierarchy_chain configs :
  is_Some (levels configs !! "mem") ->
  is_Some (levels configs !! "cache_1") ->
  ∃ hierarchy cache_1 main_memory,
    build_hierarchy configs = Ok hierarchy ∧
    hierarchy !! "cache_1" = Some cache_1 ∧
    hierarchy !! "mem" = Some main_memory ∧
    next_level main_memory = None ∧
    map name (chain cache_1) =
      "cache_1" ::
      filter (fun key => has_level configs key = true)
        ["cache_2"; "cache_3"; "cache_4"] ++ ["mem"] ∧
    last (chain cache_1) = Some main_memory ∧
    (∀ level, level ∈ chain cache_1 -> hierarchy !! name level = Some level) ∧
    (∀ key, is_Some (hierarchy !! key) -> key ∈ map name (chain cache_1)).
Proof.
  intros [m Hm] [c1 Hc1].
  unfold build_hierarchy, add_level_if_present, build_cache, getitem.
  rewrite Hm, Hc1. rewrite !filter_cons, filter_nil.
  destruct (levels configs !! "cache_4") as [c4|] eqn:H4;
  destruct (levels configs !! "cache_3") as [c3|] eqn:H3;
  destruct (levels configs !! "cache_2") as [c2|] eqn:H2;
  resolve_has_level;
  simpl; try rewrite H4; try rewrite H3; try rewrite H2; simpl.
  all: do 3 eexists; split; [reflexivity|].
  all: split; [by simplify_map_eq|].
  all: split; [by simplify_map_eq|].
  all: do 3 (split; [reflexivity|]).
  all: split; simpl.
  all: try (intros level Hlevel; chain_member Hlevel).
  all: intros key [v Hv]; hierarchy_key Hv.
Qed.

Lemma build_hierarchy_chain_witness :
  is_Some (levels sample_config !! "mem") ∧
  is_Some (levels sample_config !! "cache_1") ∧
  ∃ hierarchy cache_1 main_memory,
    build_hierarchy sample_config = Ok hierarchy ∧
    hierarchy !! "cache_1" = Some cache_1 ∧
    hierarchy !! "mem" = Some main_memory ∧
    next_level main_memory = None ∧
    map name (chain cache_1) =
      "cache_1" ::
      filter (fun key => has_level sample_config key = true)
        ["cache_2"; "cache_3"; "cache_4"] ++ ["mem"] ∧
    last (chain cache_1) = Some main_memory ∧
    (∀ level, level ∈ chain cache_1 -> hierarchy !! name level = Some level) ∧
    (∀ key, is_Some (hierarchy !! key) -> key ∈ map name (chain cache_1)).
Proof.
  assert (Hmem : is_Some (levels sample_config !! "mem")) by (by eexists).
  assert (Hl1 : is_Some (levels sample_config !! "cache_1")) by (by eexists).
  split; [exact Hmem|]. split; [exact Hl1|].
  exact (build_hierarchy_chain sample_config Hmem Hl1).
Defined.

(** On the sample configuration the chain is [cache_1], [cache_3], [mem]. *)
Example sample_hierarchy_chain :
  ∃ hierarchy cache_1,
    build_hierarchy sample_config = Ok hierarchy ∧
    hierarchy !! "cache_1" = Some cache_1 ∧
    map name (chain cache_1) = ["cache_1"; "cache_3"; "mem"].
Proof. do 2 eexists. split; [reflexivity|]. split; reflexivity. Qed.

(** Without the [mem] entry the construction raises. *)
Example build_hierarchy_without_mem :
  build_hierarchy (mkConfig (mkArchitecture 4 4 true) {[ "cache_1" := mkLevel 2 1 1 ]})
  = Raise (KeyError "mem").
Proof. reflexivity. Qed.

(** ** The trace loop *)

Section SimulateFacts.
Context {engine : Type}.
Variable read : Cache -> string -> nat -> engine -> Response * engine.
Variable write : Cache -> string -> bool -> nat -> engine -> Response * engine.
Implicit Types (s : state engine) (trace : list string).

Lemma bind_Ok {A B} (m : M engine A) (k : A -> M engine B) s a s1 :
  m s = (Ok a, s1) -> (m ≫= k) s = k a s1.
Proof. intros H. unfold mbind, M_bind. by rewrite H. Qed.

Lemma bind_Raise {A B} (m : M engine A) (k : A -> M engine B) s e s1 :
  m s = (Raise e, s1) -> (m ≫= k) s = (Raise e, s1).
Proof. intros H. unfold mbind, M_bind. by rewrite H. Qed.

Lemma well_formed_line_call current_step line :
  well_formed line = true <-> is_Some (line_call current_step line).
Proof.
  unfold well_formed, line_call.
  destruct (split line) as [|address [|op [|? ?]]];
    try (split; [discriminate | by intros [? ?]]).
  destruct (bool_decide (op = "R")); simpl; [split; eauto|].
  destruct (bool_decide (op = "W")); simpl; [split; eauto|].
  split; [discriminate | by intros [? ?]].
Qed.

Lemma execute_call l1 current_step line c s :
  line_call current_step line = Some c ->
  execute read write l1 current_step line s = (Ok (), after_call read write l1 c s).
Proof.
  unfold line_call, execute, after_call.
  destruct (split line) as [|address [|op [|? ?]]]; try discriminate.
  unfold mbind at 1, M_bind at 1, lift at 1, unpack2. cbv beta iota.
  destruct (bool_decide (op = "R")).
  - intros [= <-]. unfold mbind, M_bind, log, l1_read, responses_append. simpl.
    destruct (read l1 address current_step (st_engine s)) as [r e]. simpl.
    by rewrite <- app_assoc.
  - destruct (bool_decide (op = "W")); [|discriminate].
    intros [= <-]. unfold mbind, M_bind, log, l1_write, responses_append. simpl.
    destruct (write l1 address true current_step (st_engine s)) as [r e]. simpl.
    by rewrite <- app_assoc.
Qed.

Lemma execute_invalid_op l1 current_step line address op s :
  split line = [address; op] -> op ≠ "R" -> op ≠ "W" ->
  execute read write l1 current_step line s = (Raise (NameError "InvalidOpError"), s).
Proof.
  intros Hsplit HR HW. unfold execute. rewrite Hsplit.
  unfold mbind at 1, M_bind at 1, lift at 1, unpack2. cbv beta iota.
  rewrite !bool_decide_eq_false_2 by done. reflexivity.
Qed.

Lemma execute_no_call l1 current_step line s :
  line_call current_step line = None ->
  ∃ e, execute read write l1 current_step line s = (Raise e, s).
Proof.
  unfold line_call, execute.
  destruct (split line) as [|address [|op [|? ?]]]; try (by eexists).
  unfold mbind at 1, M_bind at 1, lift at 1, unpack2. cbv beta iota.
  destruct (bool_decide (op = "R")); [discriminate|].
  destruct (bool_decide (op = "W")); [discriminate|].
  by eexists.
Qed.

Lemma simulate_step_at l1 trace current_step line s :
  trace !! current_step = Some line ->
  simulate_step read write l1 trace current_step s =
  execute read write l1 current_step line s.
Proof.
  intros H. unfold simulate_step, list_getitem. rewrite H. reflexivity.
Qed.


(** Running the loop over a well-formed stretch of the trace. *)
Lemma loop_over_calls l1 trace (mid : list string) :
  ∀ (pre post : list string) m s,
    trace = (pre ++ mid ++ post)%list ->
    Forall (fun line => well_formed line = true) mid ->
    for_each (seq (length pre) (length mid + m)) (simulate_step read write l1 trace) s =
    for_each (seq (length pre + length mid) m) (simulate_step read write l1 trace)
      (after_lines read write l1 (length pre) mid s).
Proof.
  induction mid as [|line mid IH]; intros pre post m s Htrace Hwf.
  - simpl. by rewrite Nat.add_0_r.
  - apply Forall_cons in Hwf as [Hline Hmid].
    apply (well_formed_line_call (length pre)) in Hline as [c Hc].
    cbn [length Nat.add seq for_each after_lines]. rewrite Hc.
    assert (Hat : trace !! length pre = Some line).
    { rewrite Htrace. simpl. by apply list_lookup_middle. }
    erewrite bind_Ok; last first.
    { rewrite (simulate_step_at _ _ _ _ _ Hat). by apply execute_call. }
    specialize (IH (pre ++ [line]) post m (after_call read write l1 c s)).
    rewrite length_app in IH. simpl in IH.
    rewrite !Nat.add_1_r in IH. rewrite <- Nat.add_succ_comm.
    apply IH; [|done]. by rewrite <- app_assoc.
Qed.

Lemma after_lines_calls l1 (mid : list string) :
  ∀ start s,
    Forall (fun line => well_formed line = true) mid ->
    ∃ calls responses,
      imap (fun j => line_call (start + j)) mid = Some <$> calls ∧
      st_calls (after_lines read write l1 start mid s) = st_calls s ++ calls ∧
      replay read write l1 calls (st_engine s) =
        (responses, st_engine (after_lines read write l1 start mid s)) ∧
      st_responses (after_lines read write l1 start mid s) =
        st_responses s ++ responses ∧
      length responses = length mid ∧
      st_results (after_lines read write l1 start mid s) = st_results s.
Proof.
  induction mid as [|line mid IH]; intros start s Hwf.
  - exists [], []. simpl. by rewrite !app_nil_r.
  - apply Forall_cons in Hwf as [Hline Hmid].
    apply (well_formed_line_call start) in Hline as [c Hc].
    cbn [after_lines]. rewrite Hc.
    destruct (IH (S start) (after_call read write l1 c s) Hmid)
      as (calls & responses & Hcalls & Hst & Hreplay & Hresp & Hlen & Hres).
    unfold after_call in *.
    destruct (run_call read write l1 c (st_engine s)) as [r e] eqn:Hrun.
    cbn [st_calls st_engine st_responses st_results] in *.
    exists (c :: calls), (r :: responses).
    split.
    { cbn [imap fmap list_fmap]. rewrite Nat.add_0_r, Hc. f_equal.
      etrans; [|exact Hcalls].
      apply imap_ext. intros j x _. simpl. f_equal. lia. }
    split; [by rewrite Hst, <- app_assoc|].
    split; [cbn [replay]; by rewrite Hrun, Hreplay|].
    split; [by rewrite Hresp, <- app_assoc|].
    split; [simpl; by rewrite Hlen|done].
Qed.

Lemma line_call_step current_step line c :
  line_call current_step line = Some c -> call_step c = current_step.
Proof.
  unfold line_call.
  destruct (split line) as [|address [|op [|? ?]]]; try discriminate.
  destruct (bool_decide (op = "R")); [by intros [= <-]|].
  destruct (bool_decide (op = "W")); [by intros [= <-]|discriminate].
Qed.

Lemma line_call_invalid_op current_step line address op :
  split line = [address; op] -> op ≠ "R" -> op ≠ "W" ->
  line_call current_step line = None.
Proof.
  intros Hsplit HR HW. unfold line_call. rewrite Hsplit.
  by rewrite !bool_decide_eq_false_2 by done.
Qed.

(** The loop stops at the latest at a line that stands for no call. *)
Lemma loop_stops_at l1 trace i line :
  trace !! i = Some line ->
  line_call i line = None ->
  ∀ n k s,
    k <= i < k + n ->
    ∃ e s' calls entries,
      for_each (seq k n) (simulate_step read write l1 trace) s = (Raise e, s') ∧
      st_calls s' = st_calls s ++ calls ∧
      Forall (fun c => call_step c < i) calls ∧
      length calls <= i - k ∧
      length (st_responses s') = length (st_responses s) + length calls ∧
      st_log s' = st_log s ++ entries ∧
      Forall (loop_entry_before i) entries ∧
      st_results s' = st_results s.
Proof.
  intros Hat Hnone. induction n as [|n IH]; intros k s Hk; [lia|].
  cbn [seq for_each].
  destruct (decide (k = i)) as [->|Hne].
  - destruct (execute_no_call l1 i line s Hnone) as [e He].
    exists e, s, [], []. rewrite !app_nil_r.
    split; [|repeat split; try done; simpl; lia].
    apply bind_Raise. by rewrite (simulate_step_at _ _ _ _ _ Hat).
  - assert (Hlt : k < i) by lia.
    destruct (lookup_lt_is_Some_2 trace k) as [line' Hline'].
    { apply lookup_lt_Some in Hat. lia. }
    destruct (line_call k line') as [c|] eqn:Hc.
    + destruct (IH (S k) (after_call read write l1 c s)) as
        (e & s' & calls & entries & Hrun & Hcalls & Hsteps & Hlen & Hresp & Hlog & Hent & Hres);
        [lia|].
      exists e, s', (c :: calls).
      unfold after_call in *.
      destruct (run_call read write l1 c (st_engine s)) as [r eng] eqn:Hcall.
      cbn [st_calls st_engine st_responses st_results st_log] in *.
      exists (call_log_entry c :: LogOutcome r :: entries).
      split.
      { erewrite bind_Ok; [exact Hrun|].
        rewrite (simulate_step_at _ _ _ _ _ Hline').
        rewrite (execute_call _ _ _ _ _ Hc). unfold after_call. by rewrite Hcall. }
      split; [by rewrite Hcalls, <- app_assoc|].
      split.
      { constructor; [|done]. by rewrite (line_call_step _ _ _ Hc). }
      split; [simpl; lia|].
      split; [rewrite Hresp, length_app; simpl; lia|].
      split; [by rewrite Hlog, <- app_assoc|].
      split; [|done].
      constructor; [|constructor; [done|done]].
      apply line_call_step in Hc. destruct c; simpl in *; lia.
    + destruct (execute_no_call l1 k line' s Hc) as [e He].
      exists e, s, [], []. rewrite !app_nil_r.
      split; [|repeat split; try done; simpl; lia].
      apply bind_Raise. by rewrite (simulate_step_at _ _ _ _ _ Hline').
Qed.

Lemma loop_whole l1 trace s :
  Forall (fun line => well_formed line = true) trace ->
  for_each (seq 0 (length trace)) (simulate_step read write l1 trace) s =
  (Ok (), after_lines read write l1 0 trace s).
Proof.
  intros Hwf.
  pose proof (loop_over_calls l1 trace trace [] [] 0 s) as H.
  rewrite app_nil_r, Nat.add_0_r in H. simpl in H.
  rewrite H; done.
Qed.

(** On a well-formed trace [simulate] returns normally; the analysis at
    its end leaves the engine, the calls and the responses alone. *)
Lemma simulate_well_formed hierarchy l1 trace s :
  hierarchy !! "cache_1" = Some l1 ->
  Forall (fun line => well_formed line = true) trace ->
  ∃ s',
    simulate read write hierarchy trace s = (Ok (), s') ∧
    st_engine s' = st_engine (after_lines read write l1 0 trace (with_new_responses s)) ∧
    st_calls s' = st_calls (after_lines read write l1 0 trace (with_new_responses s)) ∧
    st_responses s' =
      st_responses (after_lines read write l1 0 trace (with_new_responses s)).
Proof.
  intros Hl1 Hwf. unfold simulate.
  erewrite bind_Ok by reflexivity.
  erewrite bind_Ok by (unfold lift, getitem; rewrite Hl1; reflexivity).
  erewrite bind_Ok by (by apply loop_whole).
  erewrite bind_Ok by reflexivity.
  erewrite bind_Ok by reflexivity.
  unfold analyze_results.
  erewrite bind_Ok by reflexivity.
  erewrite bind_Ok by reflexivity.
  erewrite bind_Ok by (unfold lift, getitem; rewrite Hl1; reflexivity).
  erewrite bind_Ok by apply compute_amat_run.
  eexists. split; [reflexivity|]. by simpl.
Qed.

Lemma build_hierarchy_cache_1 configs hierarchy :
  build_hierarchy configs = Ok hierarchy ->
  is_Some (hierarchy !! "cache_1").
Proof.
  unfold build_hierarchy, mbind, result_bind. intros H.
  destruct (build_cache configs "mem" None) as [m|]; [|discriminate].
  destruct (add_level_if_present configs "cache_4" _) as [acc4|]; [|discriminate].
  destruct (add_level_if_present configs "cache_3" _) as [acc3|]; [|discriminate].
  destruct (add_level_if_present configs "cache_2" _) as [[prev h]|]; [|discriminate].
  destruct (build_cache configs "cache_1" _) as [c1|]; [|discriminate].
  injection H as <-. exists c1. apply lookup_insert_eq.
Qed.

Lemma load_trace_drops_comment (pre post : list string) c :
  startswith c "#" = true ->
  load_trace (pre ++ c :: post) = load_trace (pre ++ post).
Proof.
  intros Hc. unfold load_trace. rewrite !filter_app, filter_cons.
  rewrite decide_False; [done|]. rewrite Hc. simpl. discriminate.
Qed.

(** C5. When the trace holds a line whose second word is neither [R] nor
    [W], [simulate] raises; the calls made on [cache_1] all belong to
    earlier lines, there is one response per such call and none for the
    line or for a later one, the logger has received entries of the loop
    for earlier steps only (nothing of the analysis), and the accumulator
    of [compute_amat] is untouched. *)
Theorem simulate_aborts_on_invalid_op hierarchy trace i line address op s :
  trace !! i = Some line ->
  split line = [address; op] ->
  op ≠ "R" ->
  op ≠ "W" ->
  ∃ e s' calls entries,
    simulate read write hierarchy trace s = (Raise e, s') ∧
    st_calls s' = st_calls s ++ calls ∧
    Forall (fun c => call_step c < i) calls ∧
    length (st_responses s') = length calls ∧
    length calls <= i ∧
    st_log s' = st_log s ++ entries ∧
    Forall (loop_entry_before i) entries ∧
    st_results s' = st_results s.
Proof.
  intros Hat Hsplit HR HW. unfold simulate.
  erewrite bind_Ok by reflexivity.
  destruct (hierarchy !! "cache_1") as [l1|] eqn:Hl1.
  - erewrite bind_Ok by (unfold lift, getitem; rewrite Hl1; reflexivity).
    destruct (loop_stops_at l1 trace i line Hat
                (line_call_invalid_op i line address op Hsplit HR HW)
                (length trace) 0 (with_new_responses s))
      as (e & s' & calls & entries & Hrun & Hcalls & Hsteps & Hlen & Hresp & Hlog & Hent & Hres).
    { apply lookup_lt_Some in Hat. lia. }
    exists e, s', calls, entries.
    split; [by apply bind_Raise|].
    repeat split; try done. lia.
  - exists (KeyError "cache_1"), (with_new_responses s), [], [].
    rewrite !app_nil_r.
    split; [|repeat split; try done; simpl; lia].
    apply bind_Raise. unfold lift, getitem. by rewrite Hl1.
Qed.

(** C9. When [simulate] reaches a line whose second word is neither [R]
    nor [W] (the hierarchy has [cache_1], the lines before are well
    formed), what it raises is the [NameError] for [InvalidOpError], a
    name the module does not bind; the responses are those of the lines
    before. *)
Theorem simulate_invalid_op_is_name_error hierarchy l1
    (pre post : list string) line address op s :
  hierarchy !! "cache_1" = Some l1 ->
  Forall (fun line => well_formed line = true) pre ->
  split line = [address; op] ->
  op ≠ "R" ->
  op ≠ "W" ->
  ("InvalidOpError" ∉ module_globals) ∧
  load_global "InvalidOpError" = Raise (NameError "InvalidOpError") ∧
  ∃ s',
    simulate read write hierarchy (pre ++ line :: post) s =
      (Raise (NameError "InvalidOpError"), s') ∧
    length (st_responses s') = length pre.
Proof.
  intros Hl1 Hwf Hsplit HR HW.
  split; [by apply (bool_decide_unpack _)|]. split; [reflexivity|].
  exists (after_lines read write l1 0 pre (with_new_responses s)).
  split.
  - unfold simulate.
    erewrite bind_Ok by reflexivity.
    erewrite bind_Ok by (unfold lift, getitem; rewrite Hl1; reflexivity).
    apply bind_Raise.
    rewrite length_app. cbn [length].
    pose proof (loop_over_calls l1 (pre ++ line :: post) pre [] (line :: post)
                  (S (length post)) (with_new_responses s) eq_refl Hwf) as Hloop.
    cbn [length Nat.add] in Hloop. etrans; [exact Hloop|].
    cbn [seq for_each].
    apply bind_Raise.
    rewrite (simulate_step_at l1 (pre ++ line :: post) (length pre) line)
      by apply list_lookup_middle, eq_refl.
    by apply execute_invalid_op with address op.
  - destruct (after_lines_calls l1 pre 0 (with_new_responses s) Hwf)
      as (calls & responses & _ & _ & _ & Hresp & Hlen & _).
    rewrite Hresp. simpl. done.
Qed.

(** C6. [main] drops the lines that start with [#] before it simulates:
    the trace has none of them, keeps the other lines in their order, and
    a run with a comment line is the run without it.  When the lines
    left are well formed, the run returns normally, the calls made on
    [cache_1] are the calls of the lines, line [i] with step [i], in
    trace order, and [responses] holds the outcome of each call in the
    same order, one per line. *)
Theorem main_processes_trace_in_order configs hierarchy trace_file
    (lines : list string) s :
  build_hierarchy configs = Ok hierarchy ->
  Forall (fun line => well_formed line = true) (load_trace lines) ->
  Forall (fun line => startswith line "#" = false) (load_trace lines) ∧
  load_trace lines `sublist_of` lines ∧
  (∀ line, line ∈ lines -> startswith line "#" = false -> line ∈ load_trace lines) ∧
  (∀ (pre post : list string) c,
     lines = pre ++ c :: post -> startswith c "#" = true ->
     main read write configs trace_file (pre ++ post) s =
     main read write configs trace_file lines s) ∧
  ∃ l1 calls responses s',
    hierarchy !! "cache_1" = Some l1 ∧
    main read write configs trace_file lines s = (Ok (), s') ∧
    imap line_call (load_trace lines) = Some <$> calls ∧
    st_calls s' = st_calls s ++ calls ∧
    replay read write l1 calls (st_engine s) = (responses, st_engine s') ∧
    st_responses s' = responses ∧
    length responses = length (load_trace lines).
Proof.
  intros Hbuild Hwf.
  split.
  { apply Forall_forall. intros line Hin. unfold load_trace in Hin.
    apply list_elem_of_filter in Hin as [Hin _].
    by destruct (startswith line "#"). }
  split; [apply sublist_filter|].
  split.
  { intros line Hin Hline. unfold load_trace. apply list_elem_of_filter.
    split; [|done]. by rewrite Hline. }
  split.
  { intros pre post c -> Hc. unfold main.
    by rewrite (load_trace_drops_comment pre post c Hc). }
  destruct (build_hierarchy_cache_1 configs hierarchy Hbuild) as [l1 Hl1].
  pose (s1 := mkState (st_engine s) (st_calls s) (st_responses s)
                (st_log s ++ [LogInfo "Loading config...";
                              LogInfo "Memory hierarchy built.";
                              LogInfo "Loading tracefile...";
                              LogInfo ("Loaded tracefile " +:+ trace_file);
                              LogInfo "Begin simulation!"])
                (st_results s)).
  destruct (simulate_well_formed hierarchy l1 (load_trace lines) s1 Hl1 Hwf)
    as (s' & Hrun & Heng & Hcalls & Hresp).
  destruct (after_lines_calls l1 (load_trace lines) 0 (with_new_responses s1) Hwf)
    as (calls & responses & Himap & Hc & Hreplay & Hr & Hlen & _).
  change (st_calls (with_new_responses s1)) with (st_calls s) in Hc.
  change (st_engine (with_new_responses s1)) with (st_engine s) in Hreplay.
  change (st_responses (with_new_responses s1)) with (@nil Response) in Hr.
  exists l1, calls, responses, s'.
  split; [done|].
  split.
  { unfold main.
    erewrite bind_Ok by reflexivity.
    erewrite bind_Ok by (unfold lift; rewrite Hbuild; reflexivity).
    do 4 (erewrite bind_Ok by reflexivity).
    etrans; [|exact Hrun]. unfold s1, log. simpl.
    by rewrite <- !app_assoc. }
  split; [exact Himap|].
  split; [by rewrite Hcalls, Hc|].
  split; [by rewrite Heng|].
  split; [by rewrite Hresp, Hr|done].
Qed.

End SimulateFacts.

Lemma simulate_aborts_on_invalid_op_witness :
  invalid_op_trace !! 1 = Some "4 X" ∧
  split "4 X" = ["4"; "X"] ∧
  "X" ≠ "R" ∧
  "X" ≠ "W" ∧
  ∃ e s' calls entries,
    simulate toy_read toy_write scenario_hierarchy invalid_op_trace
      (initial_state ∅) = (Raise e, s') ∧
    st_calls s' = st_calls (initial_state (∅ : toy_engine)) ++ calls ∧
    Forall (fun c => call_step c < 1) calls ∧
    length (st_responses s') = length calls ∧
    length calls <= 1 ∧
    st_log s' = st_log (initial_state (∅ : toy_engine)) ++ entries ∧
    Forall (loop_entry_before 1) entries ∧
    st_results s' = st_results (initial_state (∅ : toy_engine)).
Proof.
  assert (HR : "X" ≠ "R") by discriminate.
  assert (HW : "X" ≠ "W") by discriminate.
  split; [reflexivity|]. split; [reflexivity|].
  split; [exact HR|]. split; [exact HW|].
  exact (simulate_aborts_on_invalid_op toy_read toy_write scenario_hierarchy
           invalid_op_trace 1 "4 X" "4" "X" (initial_state ∅)
           eq_refl eq_refl HR HW).
Defined.

Lemma simulate_invalid_op_is_name_error_witness :
  scenario_hierarchy !! "cache_1" = Some two_level_l1 ∧
  Forall (fun line => well_formed line = true) ["0 R"] ∧
  split "4 X" = ["4"; "X"] ∧
  "X" ≠ "R" ∧
  "X" ≠ "W" ∧
  ("InvalidOpError" ∉ module_globals) ∧
  load_global "InvalidOpError" = Raise (NameError "InvalidOpError") ∧
  ∃ s',
    simulate toy_read toy_write scenario_hierarchy (["0 R"] ++ "4 X" :: ["0 R"])
      (initial_state ∅) = (Raise (NameError "InvalidOpError"), s') ∧
    length (st_responses s') = length ["0 R"].
Proof.
  assert (HR : "X" ≠ "R") by discriminate.
  assert (HW : "X" ≠ "W") by discriminate.
  assert (Hwf : Forall (fun line => well_formed line = true) ["0 R"]).
  { repeat constructor. }
  split; [reflexivity|]. split; [exact Hwf|]. split; [reflexivity|].
  split; [exact HR|]. split; [exact HW|].
  exact (simulate_invalid_op_is_name_error toy_read toy_write scenario_hierarchy
           two_level_l1 ["0 R"] ["0 R"] "4 X" "4" "X" (initial_state ∅)
           eq_refl Hwf eq_refl HR HW).
Defined.

Lemma main_processes_trace_in_order_witness :
  build_hierarchy scenario_config = Ok scenario_hierarchy ∧
  Forall (fun line => well_formed line = true) (load_trace scenario_lines) ∧
  Forall (fun line => startswith line "#" = false) (load_trace scenario_lines) ∧
  load_trace scenario_lines `sublist_of` scenario_lines ∧
  (∀ line, line ∈ scenario_lines -> startswith line "#" = false ->
     line ∈ load_trace scenario_lines) ∧
  (∀ (pre post : list string) c,
     scenario_lines = pre ++ c :: post -> startswith c "#" = true ->
     main toy_read toy_write scenario_config "traces/simple.txt" (pre ++ post)
       (initial_state ∅) =
     main toy_read toy_write scenario_config "traces/simple.txt" scenario_lines
       (initial_state ∅)) ∧
  ∃ l1 calls responses s',
    scenario_hierarchy !! "cache_1" = Some l1 ∧
    main toy_read toy_write scenario_config "traces/simple.txt" scenario_lines
      (initial_state ∅) = (Ok (), s') ∧
    imap line_call (load_trace scenario_lines) = Some <$> calls ∧
    st_calls s' = st_calls (initial_state (∅ : toy_engine)) ++ calls ∧
    replay toy_read toy_write l1 calls (st_engine (initial_state (∅ : toy_engine)))
      = (responses, st_engine s') ∧
    st_responses s' = responses ∧
    length responses = length (load_trace scenario_lines).
Proof.
  assert (Hbuild : build_hierarchy scenario_config = Ok scenario_hierarchy)
    by reflexivity.
  assert (Hwf : Forall (fun line => well_formed line = true)
                  (load_trace scenario_lines)).
  { repeat constructor. }
  split; [exact Hbuild|]. split; [exact Hwf|].
  exact (main_processes_trace_in_order toy_read toy_write scenario_config
           scenario_hierarchy "traces/simple.txt" scenario_lines
           (initial_state ∅) Hbuild Hwf).
Defined.

(** The scenario run: the comment lines leave no trace; three calls with
    steps 0, 1, 2; the outcomes cost 51, 51 and 1 cycles. *)
Example scenario_run :
  ∃ s',
    main toy_read toy_write scenario_config "traces/simple.txt" scenario_lines
      (initial_state ∅) = (Ok (), s') ∧
    st_calls s' = [CallRead "0" 0; CallRead "4" 1; CallWrite "0" true 2] ∧
    map time (st_responses s') = [51; 51; 1]%Q ∧
    map (fun r => hit_list r !! "cache_1") (st_responses s')
      = [Some false; Some false; Some true].
Proof.
  eexists. split; [vm_compute; reflexivity|].
  split; [reflexivity|]. split; reflexivity.
Qed.

Example invalid_op_run :
  fst (simulate toy_read toy_write scenario_hierarchy invalid_op_trace
         (initial_state ∅))
  = Raise (NameError "InvalidOpError").
Proof. vm_compute. reflexivity. Qed.

Example short_line_run :
  fst (simulate toy_read toy_write scenario_hierarchy ["0 R"; ""; "4 R"]
         (initial_state ∅))
  = Raise ValueError.
Proof. vm_compute. reflexivity. Qed.

(** ** Address decoding *)

(** C7. For every address and every level whose block size and number of
    sets are positive, the decomposition into tag, set index and block
    offset gives the address back:
    [tag * numSets * blockSize + setIndex * blockSize + blockOffset]. *)
Theorem decode_address_round_trip (address : Z) (level : Cache) :
  (0 < block_size level)%Z ->
  (0 < num_sets level)%Z ->
  let '(tag, set_index, block_offset) := decode_address address level in
  (tag * num_sets level * block_size level
   + set_index * block_size level + block_offset)%Z = address.
Proof.
  intros Hbs Hns. unfold decode_address.
  pose proof (Z.div_mod address (block_size level)) as Hblock.
  pose proof (Z.div_mod (address / block_size level) (num_sets level)) as Hset.
  nia.
Qed.

Lemma decode_address_round_trip_witness :
  (0 < block_size two_level_l1)%Z ∧
  (0 < num_sets two_level_l1)%Z ∧
  let '(tag, set_index, block_offset) := decode_address 13 two_level_l1 in
  (tag * num_sets two_level_l1 * block_size two_level_l1
   + set_index * block_size two_level_l1 + block_offset)%Z = 13%Z.
Proof.
  split; [reflexivity|]. split; [reflexivity|].
  apply (decode_address_round_trip 13 two_level_l1); reflexivity.
Defined.

(** Address 13 with blocks of 4 bytes and 2 sets: tag 1, set 1, offset 1. *)
Example decode_address_13 : decode_address 13 two_level_l1 = (1, 1, 1)%Z.
Proof. reflexivity. Qed.

(** * Further properties *)

(** ** Hierarchy construction: errors and contents *)


Lemma build_cache_matches configs key next_level_cache level :
  build_cache configs key next_level_cache = Ok level ->
  (next_level_cache = None <-> key = "mem") ->
  level_matches configs key level.
Proof.
  unfold build_cache, getitem. intros Hbuild Hnext.
  destruct (levels configs !! key) as [entry|] eqn:Hentry; [|discriminate].
  injection Hbuild as <-. unfold level_matches. simpl.
  do 4 (split; [done|]). split; [done|].
  exists entry. do 3 (split; [done|]).
  destruct (decide (key = "mem")) as [->|Hne].
  - done.
  - rewrite (bool_decide_eq_true_2 (key ≠ "mem")) by done.
    by rewrite (bool_decide_eq_false_2 (key = "mem")) by done.
Qed.

Lemma add_level_if_present_matches configs key prev_level hierarchy
    prev_level' hierarchy' :
  key ≠ "mem" ->
  map_Forall (level_matches configs) hierarchy ->
  add_level_if_present configs key (prev_level, hierarchy)
    = Ok (prev_level', hierarchy') ->
  map_Forall (level_matches configs) hierarchy'.
Proof.
  intros Hkey Hall. unfold add_level_if_present.
  destruct (has_level configs key).
  - destruct (build_cache configs key (Some prev_level)) as [level|] eqn:Hbuild;
      [|discriminate].
    intros [= <- <-]. apply map_Forall_insert_2; [|done].
    apply (build_cache_matches _ _ _ _ Hbuild). split; [discriminate|done].
  - by intros [= <- <-].
Qed.





(** X2. Every level of the mapping that [build_hierarchy] returns is
    stored under its own name and carries the configuration: the shared
    word size, block size and write policy, the hit time of its entry as
    hit time and as write time, the size and associativity of its entry
    ([-1] for [mem]); [mem] is the only level without a next level. *)
Theorem build_hierarchy_levels configs hierarchy key level :
  build_hierarchy configs = Ok hierarchy ->
  hierarchy !! key = Some level ->
  level_matches configs key level.
Proof.
  unfold build_hierarchy. intros H.
  destruct (build_cache configs "mem" None) as [main_memory|] eqn:Hm;
    [|discriminate].
  cbn [mbind result_bind] in H.
  destruct (add_level_if_present configs "cache_4" _) as [[p4 h4]|] eqn:H4;
    [|discriminate].
  cbn [mbind result_bind] in H.
  destruct (add_level_if_present configs "cache_3" _) as [[p3 h3]|] eqn:H3;
    [|discriminate].
  cbn [mbind result_bind] in H.
  destruct (add_level_if_present configs "cache_2" _) as [[p2 h2]|] eqn:H2;
    [|discriminate].
  cbn [mbind result_bind] in H.
  destruct (build_cache configs "cache_1" _) as [l1|] eqn:Hl1; [|discriminate].
  injection H as <-.
  assert (Hall : map_Forall (level_matches configs)
                   (<["cache_1" := l1]> h2)).
  { apply map_Forall_insert_2.
    { apply (build_cache_matches _ _ _ _ Hl1). split; [discriminate|done]. }
    eapply add_level_if_present_matches; [| |exact H2]; [done|].
    eapply add_level_if_present_matches; [| |exact H3]; [done|].
    eapply add_level_if_present_matches; [| |exact H4]; [done|].
    apply map_Forall_insert_2; [|apply map_Forall_empty].
    by apply (build_cache_matches _ _ _ _ Hm). }
  intros Hkey. exact (Hall key level Hkey).
Qed.

(** X3. [build_hierarchy] reads the architecture and the entries [mem],
    [cache_1] to [cache_4] only: two configurations that agree on these
    give the same result, whatever other entries they hold. *)
Theorem build_hierarchy_reads_known_entries configs1 configs2 :
  architecture configs1 = architecture configs2 ->
  (∀ key, key ∈ level_names -> levels configs1 !! key = levels configs2 !! key) ->
  build_hierarchy configs1 = build_hierarchy configs2.
Proof.
  intros Harch Hlevels.
  unfold build_hierarchy, add_level_if_present, has_level, build_cache, getitem.
  rewrite Harch.
  rewrite !(Hlevels "mem"), !(Hlevels "cache_4"), !(Hlevels "cache_3"),
    !(Hlevels "cache_2"), !(Hlevels "cache_1")
    by (unfold level_names; set_solver).
  reflexivity.
Qed.

Lemma build_hierarchy_levels_witness :
  build_hierarchy scenario_config = Ok scenario_hierarchy ∧
  scenario_hierarchy !! "cache_1" = Some two_level_l1 ∧
  level_matches scenario_config "cache_1" two_level_l1.
Proof.
  split; [reflexivity|]. split; [reflexivity|].
  apply (build_hierarchy_levels scenario_config scenario_hierarchy
           "cache_1" two_level_l1); reflexivity.
Defined.

Lemma build_hierarchy_reads_known_entries_witness :
  architecture config_with_cache_5 = architecture sample_config ∧
  (∀ key, key ∈ level_names ->
     levels config_with_cache_5 !! key = levels sample_config !! key) ∧
  build_hierarchy config_with_cache_5 = build_hierarchy sample_config.
Proof.
  assert (Hlevels : ∀ key, key ∈ level_names ->
            levels config_with_cache_5 !! key = levels sample_config !! key).
  { intros key Hkey. unfold level_names in Hkey.
    repeat (apply elem_of_cons in Hkey as [->|Hkey]; [reflexivity|]).
    by apply elem_of_nil in Hkey. }
  split; [reflexivity|]. split; [exact Hlevels|].
  exact (build_hierarchy_reads_known_entries config_with_cache_5 sample_config
           eq_refl Hlevels).
Defined.

(** ** One pass of [compute_amat]: what it touches and what it reports *)

Lemma amat_results_lookup level responses d key :
  amat_results level responses d !! key =
  match amat_entry level responses key with
  | Some v => Some v
  | None => d !! key
  end.
Proof.
  induction level as [c Hc|c next Hc IH] using Cache_ind;
    destruct c; simpl in *; subst; case_decide; subst.
  - apply lookup_insert_eq.
  - by rewrite lookup_insert_ne.
  - apply lookup_insert_eq.
  - by rewrite lookup_insert_ne.
Qed.

Lemma amat_entry_is_Some level responses key :
  is_Some (amat_entry level responses key) <-> key ∈ map name (chain level).
Proof.
  induction level as [c Hc|c next Hc IH] using Cache_ind;
    destruct c; simpl in *; subst; case_decide; subst.
  - split; [intros _; apply list_elem_of_here | by eexists].
  - split; [by intros [? ?]|].
    intros Hin. apply elem_of_cons in Hin as [->|Hin]; [done|].
    by apply elem_of_nil in Hin.
  - split; [intros _; apply list_elem_of_here | by eexists].
  - rewrite IH. split; [apply list_elem_of_further|].
    intros Hin. by apply elem_of_cons in Hin as [->|Hin].
Qed.

Lemma amat_results_twice level responses d :
  amat_results level responses (amat_results level responses d) =
  amat_results level responses d.
Proof.
  apply map_eq. intros key. rewrite !amat_results_lookup.
  by destruct (amat_entry level responses key).
Qed.

Lemma access_count_Permutation level_name (rs rs' : list Response) :
  rs ≡ₚ rs' -> access_count level_name rs = access_count level_name rs'.
Proof. intros H. unfold access_count. by rewrite H. Qed.

Lemma miss_count_Permutation level_name (rs rs' : list Response) :
  rs ≡ₚ rs' -> miss_count level_name rs = miss_count level_name rs'.
Proof. intros H. unfold miss_count. by rewrite H. Qed.

Lemma amat_value_Permutation level (rs rs' : list Response) :
  rs ≡ₚ rs' -> amat_value level rs = amat_value level rs'.
Proof.
  intros H.
  induction level as [c Hc|c next Hc IH] using Cache_ind;
    destruct c; simpl in *; subst; [done|].
  by rewrite IH, (access_count_Permutation _ _ _ H), (miss_count_Permutation _ _ _ H).
Qed.

Lemma amat_results_Permutation level (rs rs' : list Response) d :
  rs ≡ₚ rs' -> amat_results level rs d = amat_results level rs' d.
Proof.
  intros H.
  induction level as [c Hc|c next Hc IH] using Cache_ind;
    destruct c; simpl in *; subst.
  - reflexivity.
  - pose proof (amat_value_Permutation
      (mkCache name0 word_size0 block_size0 n_blocks0 associativity0
         hit_time0 write_time0 write_back0 (Some next)) _ _ H) as Hv.
    simpl in Hv. by rewrite Hv, IH.
Qed.

Lemma amat_log_Permutation level (rs rs' : list Response) :
  rs ≡ₚ rs' -> amat_log level rs = amat_log level rs'.
Proof.
  intros H.
  induction level as [c Hc|c next Hc IH] using Cache_ind;
    destruct c; simpl in *; subst; [done|].
  by rewrite IH, (access_count_Permutation _ _ _ H), (miss_count_Permutation _ _ _ H).
Qed.

(** X4. A pass of [compute_amat] leaves an entry under every level name
    of its chain, and these entries do not depend on what the accumulator
    held before; every other entry of the returned mapping is the one the
    accumulator held before the pass. *)
Theorem compute_amat_writes_own_chain {engine} level responses
    (s t : state engine) :
  ∃ d1 s1 d2 s2,
    compute_amat level responses s = (Ok d1, s1) ∧
    compute_amat level responses t = (Ok d2, s2) ∧
    ∀ key,
      (key ∈ map name (chain level) -> is_Some (d1 !! key) ∧ d1 !! key = d2 !! key) ∧
      (key ∉ map name (chain level) -> d1 !! key = st_results s !! key).
Proof.
  rewrite !compute_amat_run. do 4 eexists. split; [done|]. split; [done|].
  intros key. rewrite !amat_results_lookup. split.
  - intros Hkey. apply (amat_entry_is_Some level responses) in Hkey as [v Hv].
    rewrite Hv. split; [by eexists|done].
  - intros Hkey.
    destruct (amat_entry level responses key) as [v|] eqn:Hv; [|done].
    exfalso. apply Hkey. apply (amat_entry_is_Some level responses). by eexists.
Qed.

(** X5. Running [compute_amat] a second time on the same level and the
    same outcomes returns the same mapping and leaves the accumulator as
    the first run left it. *)
Theorem compute_amat_twice {engine} level responses (s : state engine) :
  ∃ d s1 s2,
    compute_amat level responses s = (Ok d, s1) ∧
    compute_amat level responses s1 = (Ok d, s2) ∧
    st_results s2 = st_results s1.
Proof.
  exists (amat_results level responses (st_results s)),
    (after_amat level responses s),
    (after_amat level responses (after_amat level responses s)).
  rewrite !compute_amat_run. cbn [after_amat st_results].
  rewrite amat_results_twice. done.
Qed.

(** X6. [compute_amat] does not depend on the order of the outcomes:
    on a permutation of the list it returns the same mapping and logs
    the same entries. *)
Theorem compute_amat_order_insensitive {engine} level
    (responses responses' : list Response) (s : state engine) :
  responses ≡ₚ responses' ->
  compute_amat level responses s = compute_amat level responses' s.
Proof.
  intros H. rewrite !compute_amat_run. unfold after_amat.
  by rewrite (amat_results_Permutation _ _ _ _ H), (amat_log_Permutation _ _ _ H).
Qed.

Lemma hit_count_plus_miss_count level_name responses :
  (hit_count level_name responses + miss_count level_name responses
   = access_count level_name responses)%nat.
Proof.
  unfold hit_count, miss_count, access_count.
  induction responses as [|r rs IH]; [done|].
  rewrite !filter_cons.
  destruct (hit_list r !! level_name) as [[|]|] eqn:E;
    repeat case_decide; simplify_eq;
    try (exfalso; match goal with H : ¬ is_Some _ |- _ => apply H end; by eexists);
    try (exfalso; match goal with H : is_Some None |- _ => by destruct H end);
    simpl; lia.
Qed.

Lemma amat_log_reports level responses :
  amat_log level responses =
  concat (map (level_report responses) (reverse (cache_levels level))).
Proof.
  induction level as [c Hc|c next Hc IH] using Cache_ind;
    destruct c; simpl in *; subst; [done|].
  rewrite reverse_cons, map_app, concat_app, IH.
  f_equal. cbn [map concat]. rewrite app_nil_r. unfold level_report.
  cbn [name].
  pose proof (hit_count_plus_miss_count name0 responses).
  do 3 f_equal. f_equal. lia.
Qed.

Lemma float_of_nat_nonneg n : (0 <= float_of_nat n)%Q.
Proof. unfold float_of_nat, Qle. simpl. lia. Qed.

Lemma miss_rate_bounds n_miss n_access :
  (n_miss <= n_access)%nat -> (0 < n_access)%nat ->
  (0 <= float_of_nat n_miss / float_of_nat n_access)%Q ∧
  (float_of_nat n_miss / float_of_nat n_access <= 1)%Q.
Proof.
  intros Hle Hpos.
  assert (Hden : (0 < float_of_nat n_access)%Q).
  { unfold float_of_nat, Qlt. simpl. lia. }
  split.
  - apply Qle_shift_div_l; [done|]. rewrite Qmult_0_l. apply float_of_nat_nonneg.
  - apply Qle_shift_div_r; [done|]. rewrite Qmult_1_l.
    unfold float_of_nat, Qle. simpl. lia.
Qed.

Lemma total_hit_time_nonneg level :
  Forall (fun c => (0 <= hit_time c)%Q) (chain level) ->
  (0 <= total_hit_time level)%Q.
Proof.
  induction level as [c Hc|c next Hc IH] using Cache_ind;
    destruct c; simpl in *; subst; intros Hall;
    apply Forall_cons in Hall as [Hht Hrest].
  - rewrite Qplus_0_r. done.
  - replace 0%Q with (0 + 0)%Q by reflexivity.
    apply Qplus_le_compat; [done|by apply IH].
Qed.

Lemma amat_value_bounds level responses :
  Forall (fun c => (0 <= hit_time c)%Q) (chain level) ->
  (0 <= amat_value level responses)%Q ∧
  (amat_value level responses <= total_hit_time level)%Q ∧
  ((0 < access_count (name level) responses)%nat ->
   (hit_time level <= amat_value level responses)%Q).
Proof.
  induction level as [c Hc|c next Hc IH] using Cache_ind;
    destruct c; simpl in *; subst; intros Hall;
    apply Forall_cons in Hall as [Hht Hrest]; simpl in Hht.
  - split; [done|]. split; [|intros _; apply Qle_refl].
    rewrite Qplus_0_r. apply Qle_refl.
  - destruct (IH Hrest) as (Hlow & Hhigh & _).
    destruct (0 <? access_count name0 responses)%nat eqn:G.
    + apply Nat.ltb_lt in G.
      destruct (miss_rate_bounds (miss_count name0 responses)
                  (access_count name0 responses) (miss_count_le _ _) G)
        as [Hr0 Hr1].
      assert (Hprod0 : (0 <= float_of_nat (miss_count name0 responses)
                             / float_of_nat (access_count name0 responses)
                             * amat_value next responses)%Q).
      { by apply Qmult_le_0_compat. }
      assert (Hprod1 : (float_of_nat (miss_count name0 responses)
                        / float_of_nat (access_count name0 responses)
                        * amat_value next responses
                        <= total_hit_time next)%Q).
      { eapply Qle_trans; [|exact Hhigh].
        rewrite <- (Qmult_1_l (amat_value next responses)) at 2.
        by apply Qmult_le_compat_r. }
      split; [|split].
      * replace 0%Q with (0 + 0)%Q by reflexivity. by apply Qplus_le_compat.
      * apply Qplus_le_compat; [apply Qle_refl|done].
      * intros _. rewrite <- (Qplus_0_r hit_time0) at 1.
        apply Qplus_le_compat; [apply Qle_refl|done].
    + apply Nat.ltb_ge in G. split; [|split].
      * apply Qmult_le_0_compat; [apply Qle_refl|done].
      * rewrite Qmult_0_l.
        replace 0%Q with (0 + 0)%Q by reflexivity.
        apply Qplus_le_compat; [done|by apply total_hit_time_nonneg].
      * intros Hpos. lia.
Qed.

Lemma amat_entry_of_member level responses c :
  NoDup (map name (chain level)) ->
  c ∈ chain level ->
  amat_entry level responses (name c) = Some (amat_value c responses).
Proof.
  induction level as [l Hl|l next Hl IH] using Cache_ind;
    destruct l; simpl in *; subst; intros Hnodup Hc;
    apply elem_of_cons in Hc as [->|Hc]; simpl.
  - by rewrite decide_True.
  - by apply elem_of_nil in Hc.
  - by rewrite decide_True.
  - apply NoDup_cons in Hnodup as [Hnotin Hnodup].
    rewrite decide_False.
    + by apply IH.
    + intros ->. apply Hnotin. by apply list_elem_of_fmap_2.
Qed.

Section AmatMore.
Context {engine : Type}.
Implicit Types (s : state engine).

(** X7. When no hit time of the chain is negative, the AMAT stored for
    the level is at least zero and at most the sum of the hit times down
    the chain; when the level was accessed it is at least the level's own
    hit time. *)
Theorem compute_amat_bounds level responses s :
  Forall (fun c => (0 <= hit_time c)%Q) (chain level) ->
  ∃ final s' v,
    compute_amat level responses s = (Ok final, s') ∧
    final !! name level = Some v ∧
    (0 <= v)%Q ∧
    (v <= total_hit_time level)%Q ∧
    ((0 < access_count (name level) responses)%nat -> (hit_time level <= v)%Q).
Proof.
  intros Hall. rewrite compute_amat_run.
  exists (amat_results level responses (st_results s)),
    (after_amat level responses s), (amat_value level responses).
  split; [done|]. split; [apply amat_results_self|].
  by apply amat_value_bounds.
Qed.


(** X9. [compute_amat] logs four entries per level that has a next
    level and none for main memory, the lowest level first: the name, the
    number of accesses, the number of hits and the number of misses, the
    hits logged being the number of outcomes that record [true]. *)
Theorem compute_amat_reports level responses s :
  ∃ final s',
    compute_amat level responses s = (Ok final, s') ∧
    st_log s' =
      st_log s ++ concat (map (level_report responses) (reverse (cache_levels level))).
Proof.
  rewrite compute_amat_run. do 2 eexists. split; [done|].
  simpl. by rewrite amat_log_reports.
Qed.

(** X10. In a chain whose level names are distinct, the entry a pass
    leaves for a level of the chain is the entry a pass started at that
    level leaves for it: the levels above do not change it. *)
Theorem compute_amat_sublevel level c responses s :
  NoDup (map name (chain level)) ->
  c ∈ chain level ->
  ∃ final s1 own s2 v,
    compute_amat level responses s = (Ok final, s1) ∧
    compute_amat c responses s = (Ok own, s2) ∧
    final !! name c = Some v ∧
    own !! name c = Some v.
Proof.
  intros Hnodup Hc. rewrite !compute_amat_run.
  exists (amat_results level responses (st_results s)),
    (after_amat level responses s),
    (amat_results c responses (st_results s)),
    (after_amat c responses s), (amat_value c responses).
  split; [done|]. split; [done|].
  rewrite amat_results_lookup, (amat_entry_of_member level responses c) by done.
  split; [done|]. apply amat_results_self.
Qed.
End AmatMore.

Lemma compute_amat_order_insensitive_witness :
  outcomes_cold_cold_hit ≡ₚ outcomes_hit_cold_cold ∧
  compute_amat two_level_l1 outcomes_cold_cold_hit (initial_state ()) =
  compute_amat two_level_l1 outcomes_hit_cold_cold (initial_state ()).
Proof.
  assert (Hperm : outcomes_cold_cold_hit ≡ₚ outcomes_hit_cold_cold).
  { symmetry.
    exact (Permutation_cons_append [outcome_l1_miss; outcome_l1_miss]
             outcome_l1_hit). }
  split; [exact Hperm|].
  exact (compute_amat_order_insensitive two_level_l1 outcomes_cold_cold_hit
           outcomes_hit_cold_cold (initial_state ()) Hperm).
Defined.

Lemma compute_amat_bounds_witness :
  Forall (fun c => (0 <= hit_time c)%Q) (chain two_level_l1) ∧
  ∃ final s' v,
    compute_amat two_level_l1 outcomes_cold_cold_hit (initial_state ())
      = (Ok final, s') ∧
    final !! name two_level_l1 = Some v ∧
    (0 <= v)%Q ∧
    (v <= total_hit_time two_level_l1)%Q ∧
    ((0 < access_count (name two_level_l1) outcomes_cold_cold_hit)%nat ->
     (hit_time two_level_l1 <= v)%Q).
Proof.
  assert (Hall : Forall (fun c => (0 <= hit_time c)%Q) (chain two_level_l1)).
  { repeat constructor; discriminate. }
  split; [exact Hall|].
  exact (compute_amat_bounds two_level_l1 outcomes_cold_cold_hit
           (initial_state ()) Hall).
Defined.


Lemma compute_amat_sublevel_witness :
  NoDup (map name (chain three_level_l1)) ∧
  three_level_l2 ∈ chain three_level_l1 ∧
  ∃ final s1 own s2 v,
    compute_amat three_level_l1 outcomes_one_full_miss (initial_state ())
      = (Ok final, s1) ∧
    compute_amat three_level_l2 outcomes_one_full_miss (initial_state ())
      = (Ok own, s2) ∧
    final !! name three_level_l2 = Some v ∧
    own !! name three_level_l2 = Some v.
Proof.
  assert (Hnodup : NoDup (map name (chain three_level_l1))).
  { by apply (bool_decide_unpack _). }
  assert (Hin : three_level_l2 ∈ chain three_level_l1).
  { apply list_elem_of_further, list_elem_of_here. }
  split; [exact Hnodup|]. split; [exact Hin|].
  exact (compute_amat_sublevel three_level_l1 three_level_l2
           outcomes_one_full_miss (initial_state ()) Hnodup Hin).
Defined.

(** ** The trace loop on arbitrary traces *)

Lemma well_formed_prefix_split (trace : list string) :
  ∃ rest,
    trace = well_formed_prefix trace ++ rest ∧
    Forall (fun line => well_formed line = true) (well_formed_prefix trace) ∧
    (rest = [] ∨ ∃ line rest', rest = line :: rest' ∧ well_formed line = false).
Proof.
  induction trace as [|line trace IH].
  - exists []. split; [done|]. split; [constructor|by left].
  - simpl. destruct (well_formed line) eqn:Hline.
    + destruct IH as (rest & Heq & Hwf & Hrest).
      exists rest. split; [simpl; by rewrite <- Heq|]. split; [by constructor|done].
    + exists (line :: trace). split; [done|]. split; [constructor|].
      right. by exists line, trace.
Qed.

Lemma well_formed_prefix_all (trace : list string) :
  well_formed_prefix trace = trace <->
  Forall (fun line => well_formed line = true) trace.
Proof.
  induction trace as [|line trace IH]; simpl.
  - split; [constructor|done].
  - destruct (well_formed line) eqn:Hline.
    + rewrite Forall_cons, <- IH. split; [by intros [= ->]|by intros [_ ->]].
    + split; [discriminate|]. intros H. apply Forall_cons in H as [H _].
      congruence.
Qed.

Lemma fold_left_total_cycles (responses : list Response) (t : Q) :
  (fold_left (fun t r => t + time r) responses t == t + total_cycles responses)%Q.
Proof.
  revert t. induction responses as [|r rs IH]; intros t; simpl.
  - ring.
  - rewrite IH. unfold total_cycles. simpl. ring.
Qed.

Section SimulateMore.
Context {engine : Type}.
Variable read : Cache -> string -> nat -> engine -> Response * engine.
Variable write : Cache -> string -> bool -> nat -> engine -> Response * engine.
Implicit Types (s : state engine) (trace : list string).

Lemma execute_wrong_word_count l1 current_step line s :
  length (split line) ≠ 2 ->
  execute read write l1 current_step line s = (Raise ValueError, s).
Proof.
  intros Hlen. unfold execute.
  destruct (split line) as [|address [|op [|? ?]]]; try done.
Qed.

(** The loop stops at the first line that stands for no call, in the
    state the lines before have led to. *)
Lemma simulate_stops_at hierarchy l1 (pre post : list string) line e s :
  hierarchy !! "cache_1" = Some l1 ->
  Forall (fun line => well_formed line = true) pre ->
  (∀ st, execute read write l1 (length pre) line st = (Raise e, st)) ->
  simulate read write hierarchy (pre ++ line :: post) s =
  (Raise e, after_lines read write l1 0 pre (with_new_responses s)).
Proof.
  intros Hl1 Hwf Hline. unfold simulate.
  erewrite bind_Ok by reflexivity.
  erewrite bind_Ok by (unfold lift, getitem; rewrite Hl1; reflexivity).
  apply bind_Raise.
  rewrite length_app. cbn [length].
  pose proof (loop_over_calls read write l1 (pre ++ line :: post) pre []
                (line :: post) (S (length post)) (with_new_responses s)
                eq_refl Hwf) as Hloop.
  cbn [length Nat.add] in Hloop. etrans; [exact Hloop|].
  cbn [seq for_each].
  apply bind_Raise.
  rewrite (simulate_step_at read write l1 (pre ++ line :: post) (length pre) line)
    by apply list_lookup_middle, eq_refl.
  apply Hline.
Qed.

(** All that the loop leaves behind on well-formed lines. *)
Lemma after_lines_effect l1 (mid : list string) :
  ∀ start s,
    Forall (fun line => well_formed line = true) mid ->
    ∃ calls responses,
      imap (fun j => line_call (start + j)) mid = Some <$> calls ∧
      replay read write l1 calls (st_engine s) =
        (responses, st_engine (after_lines read write l1 start mid s)) ∧
      length responses = length mid ∧
      after_lines read write l1 start mid s =
        mkState (st_engine (after_lines read write l1 start mid s))
          (st_calls s ++ calls) (st_responses s ++ responses)
          (st_log s ++ access_log calls responses) (st_results s).
Proof.
  induction mid as [|line mid IH]; intros start s Hwf.
  - exists [], []. simpl. rewrite !app_nil_r. by destruct s.
  - apply Forall_cons in Hwf as [Hline Hmid].
    apply (well_formed_line_call start) in Hline as [c Hc].
    cbn [after_lines]. rewrite Hc.
    destruct (IH (S start) (after_call read write l1 c s) Hmid)
      as (calls & responses & Hcalls & Hreplay & Hlen & Hstate).
    unfold after_call in *.
    destruct (run_call read write l1 c (st_engine s)) as [r e] eqn:Hrun.
    cbn [st_calls st_engine st_responses st_results st_log] in *.
    exists (c :: calls), (r :: responses).
    split.
    { cbn [imap fmap list_fmap]. rewrite Nat.add_0_r, Hc. f_equal.
      etrans; [|exact Hcalls].
      apply imap_ext. intros j x _. simpl. f_equal. lia. }
    split; [cbn [replay]; by rewrite Hrun, Hreplay|].
    split; [simpl; by rewrite Hlen|].
    rewrite Hstate at 1. cbn [access_log]. by rewrite <- !app_assoc.
Qed.

(** X11. With [cache_1] in the hierarchy, [simulate] goes through the
    longest prefix of well-formed lines of any trace and no further: the
    calls made on [cache_1] are those of the lines of that prefix, line
    [i] with step [i], the responses are the outcomes of these calls in
    order, and the run returns normally exactly when every line of the
    trace is well formed. *)
Theorem simulate_processes_well_formed_prefix hierarchy l1 trace s :
  hierarchy !! "cache_1" = Some l1 ->
  ∃ r s' calls responses,
    simulate read write hierarchy trace s = (r, s') ∧
    imap line_call (well_formed_prefix trace) = Some <$> calls ∧
    st_calls s' = st_calls s ++ calls ∧
    replay read write l1 calls (st_engine s) = (responses, st_engine s') ∧
    st_responses s' = responses ∧
    (r = Ok () <-> Forall (fun line => well_formed line = true) trace).
Proof.
  intros Hl1.
  destruct (well_formed_prefix_split trace) as (rest & Heq & Hwf & Hrest).
  destruct (after_lines_effect l1 (well_formed_prefix trace) 0
              (with_new_responses s) Hwf)
    as (calls & responses & Hcalls & Hreplay & _ & Hstate).
  destruct Hrest as [->|(line & rest' & -> & Hline)].
  - rewrite app_nil_r in Heq.
    assert (Hall : Forall (fun line => well_formed line = true) trace)
      by (by apply well_formed_prefix_all).
    destruct (simulate_well_formed read write hierarchy l1 trace s Hl1 Hall)
      as (s' & Hrun & Heng & Hc & Hr).
    rewrite <- Heq in Hstate, Hreplay.
    exists (Ok ()), s', calls, responses.
    split; [done|]. split; [done|].
    split; [by rewrite Hc, Hstate|].
    split; [by rewrite Heng|].
    split; [by rewrite Hr, Hstate|done].
  - assert (Hnone : line_call (length (well_formed_prefix trace)) line = None).
    { destruct (line_call _ line) eqn:E; [|done].
      assert (well_formed line = true); [|congruence].
      apply (well_formed_line_call (length (well_formed_prefix trace))).
      by eexists. }
    assert (∃ e, ∀ st, execute read write l1
                   (length (well_formed_prefix trace)) line st = (Raise e, st))
      as [e He].
    { unfold line_call in Hnone. unfold execute.
      destruct (split line) as [|address [|op [|? ?]]];
        try (by exists ValueError).
      unfold mbind at 1, M_bind at 1, lift at 1, unpack2. cbv beta iota.
      destruct (bool_decide (op = "R")); [discriminate|].
      destruct (bool_decide (op = "W")); [discriminate|].
      by eexists. }
    exists (Raise e),
      (after_lines read write l1 0 (well_formed_prefix trace)
         (with_new_responses s)), calls, responses.
    split.
    { rewrite Heq at 1. by apply simulate_stops_at. }
    split; [done|].
    split; [by rewrite Hstate|].
    split; [done|].
    split; [by rewrite Hstate|].
    split; [discriminate|].
    intros Hall. rewrite Heq in Hall.
    apply Forall_app in Hall as [_ Hall]. apply Forall_cons in Hall as [Hl _].
    congruence.
Qed.

(** X12. When [simulate] reaches a line that does not split into
    exactly two words (an empty line, one word, three words), it raises
    [ValueError]; the responses are those of the lines before and the
    accumulator of [compute_amat] is untouched. *)
Theorem simulate_wrong_word_count hierarchy l1 (pre post : list string) line s :
  hierarchy !! "cache_1" = Some l1 ->
  Forall (fun line => well_formed line = true) pre ->
  length (split line) ≠ 2 ->
  ∃ s',
    simulate read write hierarchy (pre ++ line :: post) s = (Raise ValueError, s') ∧
    length (st_responses s') = length pre ∧
    st_results s' = st_results s.
Proof.
  intros Hl1 Hwf Hlen.
  exists (after_lines read write l1 0 pre (with_new_responses s)).
  split.
  - apply simulate_stops_at; [done|done|].
    intros st. by apply execute_wrong_word_count.
  - destruct (after_lines_effect l1 pre 0 (with_new_responses s) Hwf)
      as (calls & responses & _ & _ & Hlen' & Hstate).
    rewrite Hstate. simpl. done.
Qed.

Tactic Notation "run_step" tactic3(tac) :=
  erewrite bind_Ok by tac;
  cbn [st_engine st_calls st_responses st_log st_results].

(** The result and the final state of [simulate] on a well-formed trace. *)
Lemma simulate_well_formed_state hierarchy l1 trace s :
  hierarchy !! "cache_1" = Some l1 ->
  Forall (fun line => well_formed line = true) trace ->
  ∃ calls responses e,
    imap line_call trace = Some <$> calls ∧
    replay read write l1 calls (st_engine s) = (responses, e) ∧
    length responses = length trace ∧
    simulate read write hierarchy trace s =
      (Ok (),
       mkState e (st_calls s ++ calls) responses
         (st_log s ++ access_log calls responses
          ++ [LogSimulationComplete; LogInstructions (length responses);
              LogTotalCycles
                (fold_left (fun t r => (t + time r)%Q) responses 0%Q)]
          ++ amat_log l1 responses
          ++ [LogAmats (amat_results l1 responses (st_results s))])
         (amat_results l1 responses (st_results s))).
Proof.
  intros Hl1 Hwf.
  destruct (after_lines_effect l1 trace 0 (with_new_responses s) Hwf)
    as (calls & responses & Hcalls & Hreplay & Hlen & Hstate).
  cbn [with_new_responses st_engine st_calls st_responses st_log st_results
       app] in Hstate, Hreplay.
  exists calls, responses,
    (st_engine (after_lines read write l1 0 trace (with_new_responses s))).
  split; [exact Hcalls|]. split; [exact Hreplay|]. split; [exact Hlen|].
  unfold simulate.
  run_step reflexivity.
  run_step (unfold lift, getitem; rewrite Hl1; reflexivity).
  erewrite bind_Ok by (by apply loop_whole).
  change (mkState (st_engine s) (st_calls s) [] (st_log s) (st_results s))
    with (with_new_responses s).
  rewrite Hstate.
  run_step reflexivity.
  run_step reflexivity.
  unfold analyze_results.
  run_step reflexivity.
  run_step reflexivity.
  run_step (unfold lift, getitem; rewrite Hl1; reflexivity).
  run_step (apply compute_amat_run).
  unfold log, after_amat.
  cbn [st_engine st_calls st_responses st_log st_results].
  by rewrite <- !app_assoc.
Qed.

(** X13. The log of a run on a well-formed trace, in order: for every
    line the access entry and the outcome of its call, then the end of
    the simulation, the number of instructions (the length of the
    trace), the total of the cycles of the outcomes, the statistics of
    the levels from the lowest up, and the mapping of AMATs, which is
    the whole accumulator. *)
Theorem simulate_log hierarchy l1 trace s :
  hierarchy !! "cache_1" = Some l1 ->
  Forall (fun line => well_formed line = true) trace ->
  ∃ s' calls responses t,
    simulate read write hierarchy trace s = (Ok (), s') ∧
    imap line_call trace = Some <$> calls ∧
    replay read write l1 calls (st_engine s) = (responses, st_engine s') ∧
    (t == total_cycles responses)%Q ∧
    st_log s' =
      st_log s ++ access_log calls responses
      ++ [LogSimulationComplete; LogInstructions (length trace); LogTotalCycles t]
      ++ concat (map (level_report responses) (reverse (cache_levels l1)))
      ++ [LogAmats (st_results s')].
Proof.
  intros Hl1 Hwf.
  destruct (simulate_well_formed_state hierarchy l1 trace s Hl1 Hwf)
    as (calls & responses & e & Hcalls & Hreplay & Hlen & Hrun).
  eexists _, calls, responses,
    (fold_left (fun t r => (t + time r)%Q) responses 0%Q).
  split; [exact Hrun|]. split; [exact Hcalls|].
  split; [exact Hreplay|].
  split.
  { rewrite fold_left_total_cycles. ring. }
  cbn [st_log st_results]. by rewrite amat_log_reports, Hlen.
Qed.

Lemma load_trace_comments (lines : list string) :
  Forall (fun line => startswith line "#" = true) lines ->
  load_trace lines = [].
Proof.
  induction 1 as [|line lines Hline _ IH]; [done|].
  unfold load_trace in *. rewrite filter_cons, decide_False; [done|].
  rewrite Hline. simpl. discriminate.
Qed.

(** X14. On a trace file that holds comment lines only (or nothing),
    [main] returns normally without any call on the cache engine, with an
    empty list of responses, and logs 0 instructions and 0 cycles. *)
Theorem main_comment_only_trace configs hierarchy trace_file
    (lines : list string) s :
  build_hierarchy configs = Ok hierarchy ->
  Forall (fun line => startswith line "#" = true) lines ->
  ∃ s',
    main read write configs trace_file lines s = (Ok (), s') ∧
    st_calls s' = st_calls s ∧
    st_engine s' = st_engine s ∧
    st_responses s' = [] ∧
    LogInstructions 0 ∈ st_log s' ∧
    LogTotalCycles 0 ∈ st_log s'.
Proof.
  intros Hbuild Hlines.
  destruct (build_hierarchy_cache_1 configs hierarchy Hbuild) as [l1 Hl1].
  unfold main. rewrite (load_trace_comments lines Hlines).
  run_step reflexivity.
  run_step (unfold lift; rewrite Hbuild; reflexivity).
  do 4 (run_step reflexivity).
  match goal with
  | |- context [simulate read write hierarchy [] ?st] =>
      destruct (simulate_well_formed_state hierarchy l1 [] st Hl1
                  (Forall_nil_2 _))
        as (calls & responses & e & Hcalls & Hreplay & Hlen & Hrun)
  end.
  destruct responses; [|discriminate].
  destruct calls; [|discriminate].
  cbn [replay st_engine st_calls st_log st_results access_log length fold_left
       app] in Hrun, Hreplay.
  injection Hreplay as <-.
  eexists. split; [exact Hrun|].
  cbn [st_engine st_calls st_responses st_log].
  split; [by rewrite app_nil_r|]. do 2 (split; [done|]).
  split.
  - apply elem_of_app. right. apply list_elem_of_further, list_elem_of_here.
  - apply elem_of_app. right.
    apply list_elem_of_further, list_elem_of_further, list_elem_of_here.
Qed.

End SimulateMore.

Lemma simulate_processes_well_formed_prefix_witness :
  scenario_hierarchy !! "cache_1" = Some two_level_l1 ∧
  ∃ r s' calls responses,
    simulate toy_read toy_write scenario_hierarchy invalid_op_trace
      (initial_state ∅) = (r, s') ∧
    imap line_call (well_formed_prefix invalid_op_trace) = Some <$> calls ∧
    st_calls s' = st_calls (initial_state (∅ : toy_engine)) ++ calls ∧
    replay toy_read toy_write two_level_l1 calls
      (st_engine (initial_state (∅ : toy_engine))) = (responses, st_engine s') ∧
    st_responses s' = responses ∧
    (r = Ok () <-> Forall (fun line => well_formed line = true) invalid_op_trace).
Proof.
  split; [reflexivity|].
  exact (simulate_processes_well_formed_prefix toy_read toy_write
           scenario_hierarchy two_level_l1 invalid_op_trace (initial_state ∅)
           eq_refl).
Defined.

Lemma simulate_wrong_word_count_witness :
  scenario_hierarchy !! "cache_1" = Some two_level_l1 ∧
  Forall (fun line => well_formed line = true) ["0 R"] ∧
  length (split "4 R now") ≠ 2 ∧
  ∃ s',
    simulate toy_read toy_write scenario_hierarchy
      (["0 R"] ++ "4 R now" :: ["8 W"]) (initial_state ∅)
      = (Raise ValueError, s') ∧
    length (st_responses s') = length ["0 R"] ∧
    st_results s' = st_results (initial_state (∅ : toy_engine)).
Proof.
  assert (Hwf : Forall (fun line => well_formed line = true) ["0 R"]).
  { repeat constructor. }
  assert (Hlen : length (split "4 R now") ≠ 2) by discriminate.
  split; [reflexivity|]. split; [exact Hwf|]. split; [exact Hlen|].
  exact (simulate_wrong_word_count toy_read toy_write scenario_hierarchy
           two_level_l1 ["0 R"] ["8 W"] "4 R now" (initial_state ∅)
           eq_refl Hwf Hlen).
Defined.

Lemma simulate_log_witness :
  scenario_hierarchy !! "cache_1" = Some two_level_l1 ∧
  Forall (fun line => well_formed line = true) (load_trace scenario_lines) ∧
  ∃ s' calls responses t,
    simulate toy_read toy_write scenario_hierarchy (load_trace scenario_lines)
      (initial_state ∅) = (Ok (), s') ∧
    imap line_call (load_trace scenario_lines) = Some <$> calls ∧
    replay toy_read toy_write two_level_l1 calls
      (st_engine (initial_state (∅ : toy_engine))) = (responses, st_engine s') ∧
    (t == total_cycles responses)%Q ∧
    st_log s' =
      st_log (initial_state (∅ : toy_engine)) ++ access_log calls responses
      ++ [LogSimulationComplete;
          LogInstructions (length (load_trace scenario_lines));
          LogTotalCycles t]
      ++ concat (map (level_report responses) (reverse (cache_levels two_level_l1)))
      ++ [LogAmats (st_results s')].
Proof.
  assert (Hwf : Forall (fun line => well_formed line = true)
                  (load_trace scenario_lines)).
  { repeat constructor. }
  split; [reflexivity|]. split; [exact Hwf|].
  exact (simulate_log toy_read toy_write scenario_hierarchy two_level_l1
           (load_trace scenario_lines) (initial_state ∅) eq_refl Hwf).
Defined.

Lemma main_comment_only_trace_witness :
  build_hierarchy scenario_config = Ok scenario_hierarchy ∧
  Forall (fun line => startswith line "#" = true) comment_lines ∧
  ∃ s',
    main toy_read toy_write scenario_config "traces/simple.txt" comment_lines
      (initial_state ∅) = (Ok (), s') ∧
    st_calls s' = st_calls (initial_state (∅ : toy_engine)) ∧
    st_engine s' = st_engine (initial_state (∅ : toy_engine)) ∧
    st_responses s' = [] ∧
    LogInstructions 0 ∈ st_log s' ∧
    LogTotalCycles 0 ∈ st_log s'.
Proof.
  assert (Hbuild : build_hierarchy scenario_config = Ok scenario_hierarchy)
    by reflexivity.
  assert (Hlines : Forall (fun line => startswith line "#" = true) comment_lines).
  { repeat constructor. }
  split; [exact Hbuild|]. split; [exact Hlines|].
  exact (main_comment_only_trace toy_read toy_write scenario_config
           scenario_hierarchy "traces/simple.txt" comment_lines
           (initial_state ∅) Hbuild Hlines).
Defined.

(** ** Parsing a line *)

Lemma append_cons (c : ascii) (w rest : string) :
  String c w +:+ rest = String c (w +:+ rest).
Proof. reflexivity. Qed.

Lemma append_empty (rest : string) : "" +:+ rest = rest.
Proof. reflexivity. Qed.

Lemma append_push (u : string) (c : ascii) (w : string) :
  (u +:+ String c "") +:+ w = u +:+ String c w.
Proof.
  induction u as [|d u IH]; [reflexivity|].
  rewrite !append_cons. by f_equal.
Qed.

Lemma split_from_word (u w rest : string) :
  all_chars (fun c => negb (is_space c)) w = true ->
  split_from (Some u) (w +:+ rest) = split_from (Some (u +:+ w)) rest.
Proof.
  revert u. induction w as [|c w IH]; intros u Hw.
  - rewrite append_empty. f_equal. f_equal.
    induction u as [|d u IHu]; [reflexivity|]. rewrite append_cons. by f_equal.
  - cbn [all_chars] in Hw. apply andb_true_iff in Hw as [Hc Hw].
    apply negb_true_iff in Hc.
    rewrite append_cons. cbn [split_from]. rewrite Hc.
    rewrite IH by done. unfold push. by rewrite append_push.
Qed.

Lemma split_from_first_word (w rest : string) :
  is_word w = true ->
  split_from None (w +:+ rest) = split_from (Some w) rest.
Proof.
  destruct w as [|c w]; [discriminate|]. cbn [is_word all_chars]. intros Hw.
  apply andb_true_iff in Hw as [Hc Hw].
  apply negb_true_iff in Hc.
  rewrite append_cons. cbn [split_from]. rewrite Hc. unfold push.
  rewrite split_from_word by done. reflexivity.
Qed.

Lemma split_from_blank (p rest : string) :
  is_blank p = true ->
  split_from None (p +:+ rest) = split_from None rest.
Proof.
  unfold is_blank. induction p as [|c p IH]; [done|].
  cbn [all_chars]. intros Hp. apply andb_true_iff in Hp as [Hc Hp].
  rewrite append_cons. cbn [split_from]. rewrite Hc. simpl. by apply IH.
Qed.

Lemma split_from_gap (w p rest : string) :
  is_blank p = true -> p ≠ "" ->
  split_from (Some w) (p +:+ rest) = w :: split_from None rest.
Proof.
  destruct p as [|c p]; [done|]. unfold is_blank. cbn [all_chars]. intros Hp _.
  apply andb_true_iff in Hp as [Hc Hp].
  rewrite append_cons. cbn [split_from]. rewrite Hc. simpl. f_equal.
  by apply split_from_blank.
Qed.

Lemma split_from_end (w p : string) :
  is_blank p = true -> split_from (Some w) p = [w].
Proof.
  destruct p as [|c p]; [done|]. unfold is_blank. cbn [all_chars]. intros Hp.
  apply andb_true_iff in Hp as [Hc Hp].
  cbn [split_from]. rewrite Hc. simpl. f_equal.
  pose proof (split_from_blank p "" Hp) as H.
  replace (p +:+ "") with p in H; [exact H|].
  clear. induction p as [|d p IH]; [reflexivity|]. rewrite append_cons. by f_equal.
Qed.

Lemma split_two_words (p1 a p2 b p3 : string) :
  is_blank p1 = true -> is_word a = true ->
  is_blank p2 = true -> p2 ≠ "" ->
  is_word b = true -> is_blank p3 = true ->
  split (p1 +:+ a +:+ p2 +:+ b +:+ p3) = [a; b].
Proof.
  intros H1 Ha H2 Hne Hb H3. unfold split.
  rewrite split_from_blank by done.
  rewrite split_from_first_word by done.
  rewrite split_from_gap by done.
  rewrite split_from_first_word by done.
  by rewrite split_from_end.
Qed.

Lemma split_from_words (cur : option string) (s : string) :
  (∀ w, cur = Some w -> is_word w = true) ->
  Forall (fun w => is_word w = true) (split_from cur s).
Proof.
  revert cur. induction s as [|c s IH]; intros cur Hcur; simpl.
  - destruct cur as [w|]; simpl; [|constructor].
    constructor; [by apply Hcur|constructor].
  - destruct (is_space c) eqn:Hc.
    + apply Forall_app. split.
      * destruct cur as [w|]; simpl; [|constructor].
        constructor; [by apply Hcur|constructor].
      * apply IH. intros w [=].
    + apply IH. intros w [= <-].
      destruct cur as [u|]; simpl.
      * specialize (Hcur u eq_refl).
        destruct u as [|d u]; [discriminate|]. simpl in *.
        apply andb_true_iff in Hcur as [Hd Hu]. rewrite Hd. simpl.
        clear -Hu Hc. induction u as [|e u IHu]; simpl in *.
        -- by rewrite Hc.
        -- apply andb_true_iff in Hu as [He Hu]. rewrite He. simpl. by apply IHu.
      * by rewrite Hc.
Qed.

(** X15. A line made of an address word and [R] or [W], separated by
    any non-empty white space and with any white space before and after,
    stands for the read or the write of exactly that address. *)
Theorem line_call_accepts_padding (current_step : nat)
    (p1 address p2 p3 : string) :
  is_word address = true ->
  is_blank p1 = true ->
  is_blank p2 = true ->
  p2 ≠ "" ->
  is_blank p3 = true ->
  line_call current_step (p1 +:+ address +:+ p2 +:+ "R" +:+ p3)
    = Some (CallRead address current_step) ∧
  line_call current_step (p1 +:+ address +:+ p2 +:+ "W" +:+ p3)
    = Some (CallWrite address true current_step).
Proof.
  intros Ha H1 H2 Hne H3. unfold line_call.
  rewrite !split_two_words by done. done.
Qed.

(** X16. The address of every call that a line stands for is a word of
    the line: it is not empty and holds no white space. *)
Theorem line_call_address_is_word (current_step : nat) (line : string) (c : call) :
  line_call current_step line = Some c ->
  is_word (call_address c) = true.
Proof.
  unfold line_call. intros Hc.
  pose proof (split_from_words None line ltac:(discriminate)) as Hwords.
  change (split_from None line) with (split line) in Hwords.
  destruct (split line) as [|address [|op [|? ?]]]; try discriminate.
  apply Forall_cons in Hwords as [Haddr _].
  destruct (bool_decide (op = "R")); [by injection Hc as <-|].
  destruct (bool_decide (op = "W")); [by injection Hc as <-|discriminate].
Qed.

Lemma line_call_accepts_padding_witness :
  is_word "12" = true ∧
  is_blank " " = true ∧
  is_blank "  " = true ∧
  "  " ≠ "" ∧
  is_blank "" = true ∧
  line_call 7 (" " +:+ "12" +:+ "  " +:+ "R" +:+ "")
    = Some (CallRead "12" 7) ∧
  line_call 7 (" " +:+ "12" +:+ "  " +:+ "W" +:+ "")
    = Some (CallWrite "12" true 7).
Proof.
  assert (Hne : "  " ≠ "") by discriminate.
  do 3 (split; [reflexivity|]). split; [exact Hne|]. split; [reflexivity|].
  exact (line_call_accepts_padding 7 " " "12" "  " ""
           eq_refl eq_refl eq_refl Hne eq_refl).
Defined.

Lemma line_call_address_is_word_witness :
  line_call 3 "0 R" = Some (CallRead "0" 3) ∧
  is_word (call_address (CallRead "0" 3)) = true.
Proof.
  split; [reflexivity|].
  exact (line_call_address_is_word 3 "0 R" (CallRead "0" 3) eq_refl).
Defined.

(** ** [print_cache] *)

Lemma odict_getitem_ok {X V} `{EqDecision X} (repr : X -> string)
    (d : list (X * V)) (k : X) :
  k ∈ d.*1 ->
  ∃ v, odict_getitem repr d k = Ok v ∧ (k, v) ∈ d.
Proof.
  intros Hk. unfold odict_getitem.
  destruct (list_find (fun item => item.1 = k) d) as [[i [k' v]]|] eqn:E.
  - apply list_find_Some in E as (Hi & Hk' & _). simpl in Hk'. subst k'.
    exists v. split; [done|]. by apply list_elem_of_lookup_2 with i.
  - exfalso. apply list_find_None in E.
    apply list_elem_of_fmap in Hk as ([k' v] & -> & Hin).
    rewrite Forall_forall in E. by apply (E _ Hin).
Qed.

Lemma collect_ok {X Y} (f : X -> result Y) (Q : X -> Y -> Prop) (xs : list X) :
  (∀ x, x ∈ xs -> ∃ y, f x = Ok y ∧ Q x y) ->
  ∃ ys, collect f xs = Ok ys ∧ Forall2 Q xs ys.
Proof.
  induction xs as [|x xs IH]; intros Hf.
  - exists []. by split.
  - destruct (Hf x (list_elem_of_here _ _)) as (y & Hy & HQ).
    destruct IH as (ys & Hys & HQs).
    { intros x' Hx'. apply Hf. by apply list_elem_of_further. }
    exists (y :: ys). simpl. rewrite Hy. simpl. rewrite Hys. simpl.
    split; [done|by constructor].
Qed.

Section PrintCacheFacts.
Context {K W A : Type} `{EqDecision K, EqDecision W}.
Variable key_le : K -> K -> Prop.
Context `{!RelDecision key_le}.
Variable repr_key : K -> string.
Variable repr_way : W -> string.
Implicit Types (data : list (K * list (W * A))) (cache : Cache).

Lemma set_row_ok data (set_indexes : list K) (s : nat) :
  (s < length set_indexes)%nat ->
  (∀ key, key ∈ set_indexes -> key ∈ data.*1) ->
  ∃ row, set_row repr_key repr_way data set_indexes s = Ok row ∧
         is_set_row data set_indexes s row.
Proof.
  intros Hs Hkeys.
  destruct (lookup_lt_is_Some_2 set_indexes s Hs) as [key Hkey].
  destruct (odict_getitem_ok repr_key data key) as (ways & Hways & Hin).
  { apply Hkeys. by apply list_elem_of_lookup_2 with s. }
  unfold set_row, list_getitem. rewrite Hkey. simpl. rewrite Hways. simpl.
  match goal with
  | |- context [collect ?f ?xs] =>
      destruct (collect_ok f
                  (fun w c => ∃ a, (w, a) ∈ ways ∧ c = AddressOf a) xs)
        as (cells & Hcells & Hall)
  end.
  { intros w Hw. cbn [mbind result_bind].
    try rewrite Hkey. try rewrite Hways. cbn [mbind result_bind].
    destruct (odict_getitem_ok repr_way ways w Hw) as (a & Ha & Hin').
    rewrite Ha. simpl. eexists. split; [done|]. by exists a. }
  rewrite Hcells. simpl. eexists. split; [done|].
  by exists key, ways, cells.
Qed.

Lemma set_rows_ok data (set_indexes : list K) (positions : list nat) :
  Forall (fun s => (s < length set_indexes)%nat) positions ->
  (∀ key, key ∈ set_indexes -> key ∈ data.*1) ->
  ∃ rows, collect (set_row repr_key repr_way data set_indexes) positions = Ok rows ∧
          Forall2 (is_set_row data set_indexes) positions rows.
Proof.
  intros Hpos Hkeys. apply collect_ok. intros s Hs.
  rewrite Forall_forall in Hpos. by apply set_row_ok; [apply Hpos|].
Qed.

Lemma sorted_keys_length data :
  length (merge_sort key_le data.*1) = length data.
Proof. by rewrite merge_sort_Permutation, length_fmap. Qed.

Lemma sorted_keys_member data key :
  key ∈ merge_sort key_le data.*1 -> key ∈ data.*1.
Proof. by rewrite merge_sort_Permutation. Qed.

(** The table in closed form. *)
Lemma print_cache_shape cache data :
  data ≠ [] ->
  ∃ body,
    print_cache key_le repr_key repr_way cache data =
      Ok (Some (mkTable (name cache)
                  ((Text "" :: map (fun way_no => Text ("Way " +:+ pretty way_no))
                                 (seq 0 (Z.to_nat (associativity cache))))
                   :: body) true)) ∧
    ((length data <= 8)%nat ∧
       Forall2 (is_set_row data (merge_sort key_le data.*1))
         (seq 0 (length data)) body
     ∨ (8 < length data)%nat ∧
       ∃ first last,
         body = first
                ++ replicate 3
                     (Text "." :: replicate (Z.to_nat (associativity cache)) (Text ""))
                ++ [last] ∧
         Forall2 (is_set_row data (merge_sort key_le data.*1)) (seq 0 5) first ∧
         is_set_row data (merge_sort key_le data.*1) (length data - 1) last).
Proof.
  intros Hdata. unfold print_cache.
  assert (Hlen : (0 < length data)%nat).
  { destruct data; [done|simpl; lia]. }
  rewrite length_fmap. rewrite (proj2 (Nat.ltb_lt _ _) Hlen).
  destruct data as [|[key0 ways0] data'] eqn:Edata; [done|].
  rewrite <- Edata in *. clear Hdata.
  replace (list_getitem data.*1 0) with (Ok key0 : result K)
    by (by rewrite Edata).
  cbn [mbind result_bind].
  rewrite sorted_keys_length.
  destruct (5 + 4 - 1 <? length data)%nat eqn:Hbig.
  - apply Nat.ltb_lt in Hbig.
    replace (5 `min` (length data - 4))%nat with 5%nat by lia.
    destruct (set_rows_ok data (merge_sort key_le data.*1) (seq 0 5))
      as (first & Hfirst & Hrows).
    { apply Forall_forall. intros s Hs. apply elem_of_seq in Hs.
      rewrite sorted_keys_length. lia. }
    { apply sorted_keys_member. }
    destruct (set_row_ok data (merge_sort key_le data.*1) (length data - 1))
      as (last & Hlast & Hrow).
    { rewrite sorted_keys_length. lia. }
    { apply sorted_keys_member. }
    rewrite Hfirst. cbn [mbind result_bind]. rewrite Hlast.
    eexists. split; [reflexivity|]. right. split; [lia|].
    by exists first, last.
  - apply Nat.ltb_ge in Hbig.
    destruct (set_rows_ok data (merge_sort key_le data.*1) (seq 0 (length data)))
      as (rows & Hrows & Hall).
    { apply Forall_forall. intros s Hs. apply elem_of_seq in Hs.
      rewrite sorted_keys_length. lia. }
    { apply sorted_keys_member. }
    rewrite Hrows. eexists. split; [reflexivity|]. left. split; [lia|done].
Qed.

Lemma set_rows_heads data (set_indexes : list K) (positions : list nat)
    (rows : list (list (cell A))) :
  Forall2 (is_set_row data set_indexes) positions rows ->
  map head rows = map (fun s => Some (Text ("Set " +:+ pretty s))) positions.
Proof.
  induction 1 as [|s row positions rows Hrow _ IH]; [done|].
  destruct Hrow as (key & ways & cells & _ & _ & -> & _).
  simpl. by rewrite IH.
Qed.

Lemma set_row_length data (set_indexes : list K) (s : nat) (row : list (cell A))
    (n : nat) :
  Forall (fun item => length item.2 = n) data ->
  is_set_row data set_indexes s row ->
  length row = S n.
Proof.
  intros Hall (key & ways & cells & _ & Hin & -> & Hcells).
  rewrite Forall_forall in Hall. specialize (Hall _ Hin). simpl in Hall.
  apply Forall2_length in Hcells. rewrite length_fmap in Hcells.
  simpl. by rewrite <- Hcells, Hall.
Qed.

(** X17. [print_cache] never raises: every index into the sorted keys
    and every subscript on [cache.data] it makes succeeds.  It prints
    nothing exactly when the cache holds no set. *)
Theorem print_cache_never_raises cache data :
  ∃ r,
    print_cache key_le repr_key repr_way cache data = Ok r ∧
    (r = None <-> data = []).
Proof.
  destruct data as [|item data'] eqn:Edata.
  - exists None. by split.
  - destruct (print_cache_shape cache (item :: data') ltac:(done))
      as (body & Hprint & _).
    eexists. split; [exact Hprint|]. by split.
Qed.

(** X18. For a cache with at least one set, [print_cache] prints a
    table titled with the name of the cache, with inner row borders.
    Its first column is the empty corner cell followed by the labels
    [Set 0], [Set 1], ... of all the sets when there are at most 8, and
    by [Set 0] to [Set 4], three rows of dots and the label of the last
    set when there are more: the table has one row per set and the
    header up to 8 sets, and exactly 10 rows beyond. *)
Theorem print_cache_layout cache data :
  data ≠ [] ->
  ∃ t,
    print_cache key_le repr_key repr_way cache data = Ok (Some t) ∧
    table_title t = name cache ∧
    table_inner_row_border t = true ∧
    map head (table_rows t) = map Some (row_labels (length data)) ∧
    length (table_rows t) =
      (if (length data <=? 8)%nat then S (length data) else 10%nat).
Proof.
  intros Hdata.
  destruct (print_cache_shape cache data Hdata) as (body & Hprint & Hbody).
  eexists. split; [exact Hprint|]. cbn [table_title table_rows table_inner_row_border].
  do 2 (split; [done|]). unfold row_labels.
  destruct Hbody as [[Hn Hrows]|(Hn & first & last & -> & Hfirst & Hlast)].
  - rewrite (proj2 (Nat.leb_le _ _) Hn). split.
    + cbn [map head]. f_equal.
      rewrite (set_rows_heads _ _ _ _ Hrows). by rewrite <- list_fmap_compose.
    + cbn [length]. apply Forall2_length in Hrows.
      by rewrite <- Hrows, length_seq.
  - rewrite (proj2 (Nat.leb_gt _ _) Hn). split.
    + cbn [map head]. f_equal. rewrite !map_app.
      rewrite (set_rows_heads _ _ _ _ Hfirst).
      destruct Hlast as (key & ways & cells & _ & _ & -> & _).
      done.
    + apply Forall2_length in Hfirst. cbn [length].
      rewrite !length_app, <- Hfirst. done.
Qed.

(** X19. When every set of the cache holds as many blocks as the
    associativity says, every row of the printed table (header, set rows,
    rows of dots) has one cell more than the associativity. *)
Theorem print_cache_rectangular cache data :
  data ≠ [] ->
  Forall (fun item => length item.2 = Z.to_nat (associativity cache)) data ->
  ∃ t,
    print_cache key_le repr_key repr_way cache data = Ok (Some t) ∧
    Forall (fun row => length row = S (Z.to_nat (associativity cache)))
      (table_rows t).
Proof.
  intros Hdata Hways.
  destruct (print_cache_shape cache data Hdata) as (body & Hprint & Hbody).
  eexists. split; [exact Hprint|]. cbn [table_rows].
  assert (Hrows : ∀ positions rows,
            Forall2 (is_set_row data (merge_sort key_le data.*1)) positions rows ->
            Forall (fun row => length row = S (Z.to_nat (associativity cache))) rows).
  { induction 1 as [|s row positions rows Hrow _ IH]; constructor; [|done].
    by apply (set_row_length data (merge_sort key_le data.*1) s). }
  constructor.
  { simpl. by rewrite length_map, length_seq. }
  destruct Hbody as [[Hn Hall]|(Hn & first & last & -> & Hfirst & Hlast)].
  - by apply (Hrows _ _ Hall).
  - apply Forall_app. split; [by apply (Hrows _ _ Hfirst)|].
    apply Forall_app. split.
    + apply Forall_replicate. simpl. by rewrite length_replicate.
    + constructor; [|constructor].
      by apply (set_row_length data (merge_sort key_le data.*1)
                  (length data - 1)).
Qed.

(** X20. Every position that the table shows (all of them up to 8
    sets, else the first five and the last) has a row in the table: the
    label with the position, then the addresses of the blocks of the set
    whose key stands at that position of the sorted keys, one per way key
    in the order of the set's dictionary. *)
Theorem print_cache_shows cache data :
  data ≠ [] ->
  ∃ t,
    print_cache key_le repr_key repr_way cache data = Ok (Some t) ∧
    ∀ s, s ∈ shown_positions (length data) ->
      ∃ row, row ∈ table_rows t ∧
             is_set_row data (merge_sort key_le data.*1) s row.
Proof.
  intros Hdata.
  destruct (print_cache_shape cache data Hdata) as (body & Hprint & Hbody).
  eexists. split; [exact Hprint|]. cbn [table_rows].
  assert (Hrows : ∀ positions rows s,
            Forall2 (is_set_row data (merge_sort key_le data.*1)) positions rows ->
            s ∈ positions ->
            ∃ row, row ∈ rows ∧
                   is_set_row data (merge_sort key_le data.*1) s row).
  { intros positions rows s Hall Hs.
    apply list_elem_of_lookup in Hs as [i Hi].
    destruct (Forall2_lookup_l _ _ _ _ _ Hall Hi) as (row & Hrow & His).
    exists row. split; [by apply list_elem_of_lookup_2 with i|done]. }
  unfold shown_positions. intros s Hs.
  destruct Hbody as [[Hn Hall]|(Hn & first & last & -> & Hfirst & Hlast)].
  - rewrite (proj2 (Nat.leb_le _ _) Hn) in Hs.
    destruct (Hrows _ _ s Hall Hs) as (row & Hin & Hrow).
    exists row. split; [by apply list_elem_of_further|done].
  - rewrite (proj2 (Nat.leb_gt _ _) Hn) in Hs.
    apply elem_of_app in Hs as [Hs|Hs].
    + destruct (Hrows _ _ s Hfirst Hs) as (row & Hin & Hrow).
      exists row. split; [|done].
      apply list_elem_of_further, elem_of_app. by left.
    + apply list_elem_of_singleton in Hs as ->.
      exists last. split; [|done].
      apply list_elem_of_further, elem_of_app. right.
      apply elem_of_app. right. apply list_elem_of_here.
Qed.

End PrintCacheFacts.

Lemma print_cache_layout_witness :
  sample_data 12 ≠ [] ∧
  ∃ t,
    print_cache (A:=string) le pretty pretty two_way_cache (sample_data 12)
      = Ok (Some t) ∧
    table_title t = name two_way_cache ∧
    table_inner_row_border t = true ∧
    map head (table_rows t) = map Some (row_labels (length (sample_data 12))) ∧
    length (table_rows t) =
      (if (length (sample_data 12) <=? 8)%nat
       then S (length (sample_data 12)) else 10%nat).
Proof.
  assert (Hdata : sample_data 12 ≠ []) by discriminate.
  split; [exact Hdata|].
  exact (print_cache_layout (A:=string) le pretty pretty two_way_cache
           (sample_data 12) Hdata).
Defined.

Lemma print_cache_rectangular_witness :
  sample_data 12 ≠ [] ∧
  Forall (fun item => length item.2 = Z.to_nat (associativity two_way_cache))
    (sample_data 12) ∧
  ∃ t,
    print_cache (A:=string) le pretty pretty two_way_cache (sample_data 12)
      = Ok (Some t) ∧
    Forall (fun row => length row = S (Z.to_nat (associativity two_way_cache)))
      (table_rows t).
Proof.
  assert (Hdata : sample_data 12 ≠ []) by discriminate.
  assert (Hways : Forall (fun item => length item.2
                            = Z.to_nat (associativity two_way_cache))
                    (sample_data 12)).
  { repeat constructor. }
  split; [exact Hdata|]. split; [exact Hways|].
  exact (print_cache_rectangular (A:=string) le pretty pretty two_way_cache
           (sample_data 12) Hdata Hways).
Defined.

Lemma print_cache_shows_witness :
  sample_data 12 ≠ [] ∧
  ∃ t,
    print_cache (A:=string) le pretty pretty two_way_cache (sample_data 12)
      = Ok (Some t) ∧
    ∀ s, s ∈ shown_positions (length (sample_data 12)) ->
      ∃ row, row ∈ table_rows t ∧
             is_set_row (sample_data 12) (merge_sort le (sample_data 12).*1) s row.
Proof.
  assert (Hdata : sample_data 12 ≠ []) by discriminate.
  split; [exact Hdata|].
  exact (print_cache_shows (A:=string) le pretty pretty two_way_cache
           (sample_data 12) Hdata).
Defined.

(** Twelve sets of two ways: five sets, three rows of dots, the last set;
    the sets are shown by ascending key although they were stored by
    descending key. *)
Example print_cache_twelve_sets :
  ∃ t,
    print_cache (A:=string) le pretty pretty two_way_cache (sample_data 12)
      = Ok (Some t) ∧
    table_rows t !! 1%nat = Some [Text "Set 0"; AddressOf "a0"; AddressOf "b0"] ∧
    table_rows t !! 6%nat = Some [Text "."; Text ""; Text ""] ∧
    table_rows t !! 9%nat = Some [Text "Set 11"; AddressOf "a11"; AddressOf "b11"] ∧
    table_rows t !! 10%nat = None.
Proof. eexists. split; [vm_compute; reflexivity|]. repeat split. Qed.
